(** * dmap: path traversal over dynamically typed data

    A shallow embedding of the Go package [dmap] (file [dmap.go]) and the
    properties of its traversal ([Get]), probes ([Exists]), typed extraction
    ([GetMapSI], [GetMapII], [GetSliceI]) and typed assignment ([SetMapSI],
    [SetMapII], [SetSliceI]).

    Go maps and slices are reference values: the setters write through the
    container handed out by the typed getters.  The embedding therefore keeps
    the containers in a store and lets values hold addresses into it. *)

From Stdlib Require Import ZArith.
From stdpp Require Import base strings list gmap fin_maps.

Local Open Scope Z_scope.

(** ** Dynamic values ([interface{}]) *)

(** Addresses of container objects. *)
Abbreviation addr := positive.

(** The dynamic types a value can have; this is what [%T] prints. *)
Inductive gotype : Type :=
  | TNil | TBool | TInt | TFloat64 | TString | TMapSI | TMapII | TSliceI.

(** An [interface{}] value.  Scalars are held by value; a
    [map[string]interface{}], a [map[interface{}]interface{}] and a
    [[]interface{}] are held by the address of the object in the store.  A
    [float64] is its IEEE 754 bit pattern.  An address at which the store has
    no object of the matching kind is the nil map, respectively the nil slice,
    of that type.

    A slice value is identified with its backing array: the address stands
    for the array and the slice is all of what the store holds there.  Data
    in which two different slice values share a backing array (a slice [x]
    and a reslice [x[:2]] of it, both held by the data) has no counterpart
    here: a write through one of them would show through the other, and the
    store cannot say so.  Statements about what a write leaves unchanged are
    about data without such sharing. *)
Inductive value : Type :=
  | VNil
  | VBool (b : bool)
  | VInt (n : Z)
  | VFloat64 (bits : Z)
  | VString (str : string)
  | VMapSI (a : addr)
  | VMapII (a : addr)
  | VSliceI (a : addr).

Definition type_of (v : value) : gotype :=
  match v with
  | VNil => TNil
  | VBool _ => TBool
  | VInt _ => TInt
  | VFloat64 _ => TFloat64
  | VString _ => TString
  | VMapSI _ => TMapSI
  | VMapII _ => TMapII
  | VSliceI _ => TSliceI
  end.

Global Instance gotype_eq_dec : EqDecision gotype.
Proof. solve_decision. Defined.

Global Instance value_eq_dec : EqDecision value.
Proof. solve_decision. Defined.

(** ** Equality of map keys *)

Module Float64.
(** Fields of a binary64 bit pattern. *)
Definition exponent (bits : Z) : Z := Z.land (Z.shiftr bits 52) 2047.
Definition mantissa (bits : Z) : Z := Z.land bits (Z.ones 52).
Definition is_nan (bits : Z) : bool :=
  (exponent bits =? 2047) && negb (mantissa bits =? 0).
Definition is_zero (bits : Z) : bool :=
  (exponent bits =? 0) && (mantissa bits =? 0).

(** Go's [==] on [float64]: a NaN differs from everything, itself
    included; the two zeros are equal; otherwise the patterns decide. *)
Definition eqb (x y : Z) : bool :=
  if is_nan x || is_nan y then false
  else if is_zero x && is_zero y then true
  else x =? y.
End Float64.
Arguments Float64.eqb : simpl never.

(** A value can be hashed, and so used as a key of a
    [map[interface{}]interface{}], unless its dynamic type is a map or a
    slice; hashing one of those is a run-time panic. *)
Definition hashable (v : value) : bool :=
  match v with
  | VMapSI _ | VMapII _ | VSliceI _ => false
  | _ => true
  end.

(** Go's [==] on two interface values of hashable dynamic type. *)
Definition key_eq (x y : value) : bool :=
  match x, y with
  | VNil, VNil => true
  | VBool a, VBool b => Bool.eqb a b
  | VInt a, VInt b => a =? b
  | VFloat64 a, VFloat64 b => Float64.eqb a b
  | VString a, VString b => bool_decide (a = b)
  | _, _ => false
  end.

(** ** The store of container objects *)

Record store : Type := Store {
  mapsSI : gmap addr (gmap string value);
  mapsII : gmap addr (list (value * value));
  slicesI : gmap addr (list value)
}.

Definition empty_store : store := Store ∅ ∅ ∅.

(** [m[k]] on the entries of a [map[interface{}]interface{}]. *)
Fixpoint mapII_lookup (m : list (value * value)) (k : value) : option value :=
  match m with
  | [] => None
  | (k', v) :: m' => if key_eq k' k then Some v else mapII_lookup m' k
  end.

(** [m[k] = v] on the entries of a [map[interface{}]interface{}]: the entry
    with an equal key is overwritten, otherwise one is added. *)
Fixpoint mapII_assign (m : list (value * value)) (k v : value)
  : list (value * value) :=
  match m with
  | [] => [(k, v)]
  | (k', v') :: m' =>
      if key_eq k' k then (k, v) :: m' else (k', v') :: mapII_assign m' k v
  end.

(** [v, ok := data[key]] for [data] a [map[string]interface{}]; reading a
    nil map finds nothing. *)
Definition mapSI_index (s : store) (a : addr) (key : string) : option value :=
  match mapsSI s !! a with
  | Some m => m !! key
  | None => None
  end.

(** [v, ok := data[p]] for [data] a [map[interface{}]interface{}] and [p]
    hashable. *)
Definition mapII_index (s : store) (a : addr) (p : value) : option value :=
  match mapsII s !! a with
  | Some m => mapII_lookup m p
  | None => None
  end.

(** The elements of a [[]interface{}]; a nil slice has none.  They are the
    cells of its backing array, which no other slice value covers. *)
Definition slice_elems (s : store) (a : addr) : list value :=
  match slicesI s !! a with
  | Some l => l
  | None => []
  end.

(** ** Results *)

(** The errors built with [fmt.Errorf], as the format used and its
    arguments. *)
Inductive error : Type :=
  | errorEmptyData
  | errorExpectedKey (p : value) (ty : gotype) (prefix : list value)
  | errorKeyNotFound (key : value) (prefix : list value)
  | errorExpectedIndex (p : value) (ty : gotype) (prefix : list value)
  | errorIndexOutOfRange (index : Z) (prefix : list value)
  | errorUnexpectedType (prefix : list value)
  | errorNotMapSI (path : list value)
  | errorNotMapII (path : list value)
  | errorNotSliceI (path : list value).

(** Run-time panics of the map operations. *)
Inductive panic : Type :=
  | panicUnhashable (ty : gotype)
  | panicNilMap.

(** A Go result pair [(x, err)]: either a value with a nil error, or an
    error. *)
Inductive ret (A : Type) : Type :=
  | Ok (x : A)
  | Err (e : error).
Arguments Ok {A} x.
Arguments Err {A} e.

(** A call either returns or panics. *)
Inductive outcome (A : Type) : Type :=
  | Returns (r : A)
  | Panics (p : panic).
Arguments Returns {A} r.
Arguments Panics {A} p.

Global Instance error_eq_dec : EqDecision error.
Proof. solve_decision. Defined.

(** The path an error reports, for those that report one. *)
Definition error_path (e : error) : option (list value) :=
  match e with
  | errorEmptyData => None
  | errorExpectedKey _ _ prefix
  | errorKeyNotFound _ prefix
  | errorExpectedIndex _ _ prefix
  | errorIndexOutOfRange _ prefix
  | errorUnexpectedType prefix => Some prefix
  | errorNotMapSI path | errorNotMapII path | errorNotSliceI path => Some path
  end.

(** ** The package *)

Record DMap : Type := Init { data : value }.

Definition Data (d : DMap) : value := data d.

Definition HasData (d : DMap) : bool :=
  match data d with
  | VNil => false
  | _ => true
  end.

(** The body of [for i, p := range path] in [Get]: [rest] holds the segments
    from index [i] on, [path] is the whole argument. *)
Fixpoint Get_loop (s : store) (path : list value) (i : nat)
    (rest : list value) (currentData : value) : outcome (ret DMap) :=
  match rest with
  | [] => Returns (Ok (Init currentData))
  | p :: rest' =>
      match currentData with
      | VMapSI a =>
          match p with
          | VString key =>
              match mapSI_index s a key with
              | None =>
                  Returns (Err (errorKeyNotFound (VString key) (take (S i) path)))
              | Some v => Get_loop s path (S i) rest' v
              end
          | _ => Returns (Err (errorExpectedKey p (type_of p) (take (S i) path)))
          end
      | VMapII a =>
          if hashable p then
            match mapII_index s a p with
            | None => Returns (Err (errorKeyNotFound p (take (S i) path)))
            | Some v => Get_loop s path (S i) rest' v
            end
          else Panics (panicUnhashable (type_of p))
      | VSliceI a =>
          match p with
          | VInt index =>
              let elems := slice_elems s a in
              if (index <? 0) || (index >=? Z.of_nat (length elems)) then
                Returns (Err (errorIndexOutOfRange index (take (S i) path)))
              else Get_loop s path (S i) rest' (nth (Z.to_nat index) elems VNil)
          | _ => Returns (Err (errorExpectedIndex p (type_of p) (take (S i) path)))
          end
      | _ => Returns (Err (errorUnexpectedType (take (S i) path)))
      end
  end.

Definition Get (s : store) (d : DMap) (path : list value) : outcome (ret DMap) :=
  if negb (HasData d) && negb (length path =? 0)%nat then
    Returns (Err errorEmptyData)
  else Get_loop s path 0 path (Data d).

Definition Exists (s : store) (d : DMap) (path : list value) : outcome bool :=
  match Get s d path with
  | Returns (Ok _) => Returns true
  | Returns (Err _) => Returns false
  | Panics p => Panics p
  end.

Definition GetMapSI (s : store) (d : DMap) (path : list value)
  : outcome (ret addr) :=
  match Get s d path with
  | Panics p => Panics p
  | Returns (Err e) => Returns (Err e)
  | Returns (Ok d') =>
      match Data d' with
      | VMapSI a => Returns (Ok a)
      | _ => Returns (Err (errorNotMapSI path))
      end
  end.

Definition GetMapII (s : store) (d : DMap) (path : list value)
  : outcome (ret addr) :=
  match Get s d path with
  | Panics p => Panics p
  | Returns (Err e) => Returns (Err e)
  | Returns (Ok d') =>
      match Data d' with
      | VMapII a => Returns (Ok a)
      | _ => Returns (Err (errorNotMapII path))
      end
  end.

Definition GetSliceI (s : store) (d : DMap) (path : list value)
  : outcome (ret addr) :=
  match Get s d path with
  | Panics p => Panics p
  | Returns (Err e) => Returns (Err e)
  | Returns (Ok d') =>
      match Data d' with
      | VSliceI a => Returns (Ok a)
      | _ => Returns (Err (errorNotSliceI path))
      end
  end.

(** The setters return the store after the call and the [error] result,
    [None] for nil. *)
Definition SetMapSI (s : store) (d : DMap) (v : value) (key : string)
    (path : list value) : store * outcome (option error) :=
  match GetMapSI s d path with
  | Panics p => (s, Panics p)
  | Returns (Err e) => (s, Returns (Some e))
  | Returns (Ok parent) =>
      match mapsSI s !! parent with
      | None => (s, Panics panicNilMap)
      | Some m =>
          (Store (<[parent := <[key := v]> m]> (mapsSI s)) (mapsII s) (slicesI s),
           Returns None)
      end
  end.

Definition SetMapII (s : store) (d : DMap) (v : value) (key : value)
    (path : list value) : store * outcome (option error) :=
  match GetMapII s d path with
  | Panics p => (s, Panics p)
  | Returns (Err e) => (s, Returns (Some e))
  | Returns (Ok parent) =>
      match mapsII s !! parent with
      | None => (s, Panics panicNilMap)
      | Some m =>
          if hashable key then
            (Store (mapsSI s) (<[parent := mapII_assign m key v]> (mapsII s))
               (slicesI s),
             Returns None)
          else (s, Panics (panicUnhashable (type_of key)))
      end
  end.

(** [parent[index] = data] writes one cell of the backing array of
    [parent]; with one slice value to a backing array, that is the element
    at [index] of the slice at that address and of nothing else. *)
Definition SetSliceI (s : store) (d : DMap) (v : value) (index : Z)
    (path : list value) : store * outcome (option error) :=
  match GetSliceI s d path with
  | Panics p => (s, Panics p)
  | Returns (Err e) => (s, Returns (Some e))
  | Returns (Ok parent) =>
      let elems := slice_elems s parent in
      if (index <? 0) || (index >=? Z.of_nat (length elems)) then
        (s, Returns (Some (errorIndexOutOfRange index path)))
      else
        (Store (mapsSI s) (mapsII s)
           (<[parent := <[Z.to_nat index := v]> elems]> (slicesI s)),
         Returns None)
  end.

(** ** One step of the traversal *)

(** The entry of container [cur] that segment [p] selects, when there is
    one. *)
Definition child (s : store) (cur p : value) : option value :=
  match cur with
  | VMapSI a =>
      match p with
      | VString key => mapSI_index s a key
      | _ => None
      end
  | VMapII a => if hashable p then mapII_index s a p else None
  | VSliceI a =>
      match p with
      | VInt index =>
          let elems := slice_elems s a in
          if (index <? 0) || (index >=? Z.of_nat (length elems)) then None
          else Some (nth (Z.to_nat index) elems VNil)
      | _ => None
      end
  | _ => None
  end.

(** What one iteration of the loop of [Get] does when no entry is selected. *)
Definition step_failure (cur p : value) (prefix : list value)
  : outcome (ret DMap) :=
  match cur with
  | VMapSI _ =>
      match p with
      | VString key => Returns (Err (errorKeyNotFound (VString key) prefix))
      | _ => Returns (Err (errorExpectedKey p (type_of p) prefix))
      end
  | VMapII _ =>
      if hashable p then Returns (Err (errorKeyNotFound p prefix))
      else Panics (panicUnhashable (type_of p))
  | VSliceI _ =>
      match p with
      | VInt index => Returns (Err (errorIndexOutOfRange index prefix))
      | _ => Returns (Err (errorExpectedIndex p (type_of p) prefix))
      end
  | _ => Returns (Err (errorUnexpectedType prefix))
  end.

(** Sequencing of two traversals. *)
Definition and_then (o : outcome (ret DMap)) (k : DMap → outcome (ret DMap))
  : outcome (ret DMap) :=
  match o with
  | Returns (Ok d') => k d'
  | _ => o
  end.

(** [Get] with [path], then [Get] with the one segment [seg] on the node
    that came back. *)
Definition Get_then (s : store) (d : DMap) (path : list value) (seg : value)
  : outcome (ret DMap) :=
  and_then (Get s d path) (λ d', Get s d' [seg]).

(** The error of a last step taken on its own, as the traversal of the whole
    of [path ++ [seg]] reports it: the path reported is the whole path, and
    a nil value met after at least one step is a value of unexpected type
    rather than empty data. *)
Definition rebase (path : list value) (seg : value) (e : error) : error :=
  match e with
  | errorEmptyData =>
      match path with
      | [] => errorEmptyData
      | _ => errorUnexpectedType (path ++ [seg])
      end
  | errorExpectedKey p ty _ => errorExpectedKey p ty (path ++ [seg])
  | errorKeyNotFound key _ => errorKeyNotFound key (path ++ [seg])
  | errorExpectedIndex p ty _ => errorExpectedIndex p ty (path ++ [seg])
  | errorIndexOutOfRange index _ => errorIndexOutOfRange index (path ++ [seg])
  | errorUnexpectedType _ => errorUnexpectedType (path ++ [seg])
  | errorNotMapSI _ | errorNotMapII _ | errorNotSliceI _ => e
  end.

(** ** The three setters, uniformly *)

Inductive setter : Type :=
  | BySetMapSI (key : string)
  | BySetMapII (key : value)
  | BySetSliceI (index : Z).

Definition call_setter (st : setter) (s : store) (d : DMap) (v : value)
    (path : list value) : store * outcome (option error) :=
  match st with
  | BySetMapSI key => SetMapSI s d v key path
  | BySetMapII key => SetMapII s d v key path
  | BySetSliceI index => SetSliceI s d v index path
  end.

(** The typed getter a setter resolves its parent with. *)
Definition parent_of (st : setter) (s : store) (d : DMap) (path : list value)
  : outcome (ret addr) :=
  match st with
  | BySetMapSI _ => GetMapSI s d path
  | BySetMapII _ => GetMapII s d path
  | BySetSliceI _ => GetSliceI s d path
  end.

(** The path segment under which a setter writes. *)
Definition segment_of (st : setter) : value :=
  match st with
  | BySetMapSI key => VString key
  | BySetMapII key => key
  | BySetSliceI index => VInt index
  end.



(** A parent a setter can write into: a map that is not nil, with a key
    that can be hashed and is equal to itself (any key but a NaN), or a slice
    with the index inside it. *)
Definition valid_target (s : store) (st : setter) (parent : value) : Prop :=
  match st, parent with
  | BySetMapSI _, VMapSI a => is_Some (mapsSI s !! a)
  | BySetMapII key, VMapII a =>
      is_Some (mapsII s !! a) ∧ hashable key = true ∧ key_eq key key = true
  | BySetSliceI index, VSliceI a =>
      0 ≤ index < Z.of_nat (length (slice_elems s a))
  | _, _ => False
  end.

(** ** Trees *)

(** A container object the store holds. *)
Definition allocated (s : store) (c : value) : Prop :=
  match c with
  | VMapSI a => is_Some (mapsSI s !! a)
  | VMapII a => is_Some (mapsII s !! a)
  | VSliceI a => is_Some (slicesI s !! a)
  | _ => False
  end.

(** Two segments that select the same entry of every container. *)
Definition same_segment (p q : value) : Prop := p = q ∨ key_eq p q = true.

(** The data under [d] is a tree: a container object (a map, or the backing
    array of a slice) is reached by one path only.  In particular no two
    slice values of the data share a backing array. *)
Definition tree_shaped (s : store) (d : DMap) : Prop :=
  ∀ q1 q2 c,
    allocated s c →
    Get s d q1 = Returns (Ok (Init c)) →
    Get s d q2 = Returns (Ok (Init c)) →
    Forall2 same_segment q1 q2.

(** Path [q] goes through the entry at path [w]. *)
Definition passes_through (w q : list value) : Prop :=
  ∃ q0 q1, q = q0 ++ q1 ∧ Forall2 same_segment w q0.

(** ** The assignment of a setter *)

(** The container value of the shape a setter expects, at address [a]. *)
Definition handle_of (st : setter) (a : addr) : value :=
  match st with
  | BySetMapSI _ => VMapSI a
  | BySetMapII _ => VMapII a
  | BySetSliceI _ => VSliceI a
  end.

(** When the assignment of a setter to the parent at [a] goes through: the
    map is not nil and, for [SetMapII], the key can be hashed; the index is
    inside the slice. *)
Definition writable (s : store) (st : setter) (a : addr) : Prop :=
  match st with
  | BySetMapSI _ => is_Some (mapsSI s !! a)
  | BySetMapII key => is_Some (mapsII s !! a) ∧ hashable key = true
  | BySetSliceI index => 0 ≤ index < Z.of_nat (length (slice_elems s a))
  end.

(** The store after [parent[key] = data], respectively
    [parent[index] = data], on the parent at [a]. *)
Definition store_assign (st : setter) (s : store) (a : addr) (v : value)
  : store :=
  match st with
  | BySetMapSI key =>
      Store (alter (λ m, <[key := v]> m) a (mapsSI s)) (mapsII s) (slicesI s)
  | BySetMapII key =>
      Store (mapsSI s) (alter (λ m, mapII_assign m key v) a (mapsII s))
        (slicesI s)
  | BySetSliceI index =>
      Store (mapsSI s) (mapsII s)
        (alter (λ l, <[Z.to_nat index := v]> l) a (slicesI s))
  end.

(** The panic of the assignment of a setter to the parent at [a], when it
    panics: a nil map cannot be assigned to, and the key of [SetMapII] is
    hashed. *)
Definition assign_panic (s : store) (st : setter) (a : addr) : option panic :=
  match st with
  | BySetMapSI _ =>
      match mapsSI s !! a with
      | None => Some panicNilMap
      | Some _ => None
      end
  | BySetMapII key =>
      match mapsII s !! a with
      | None => Some panicNilMap
      | Some _ =>
          if hashable key then None else Some (panicUnhashable (type_of key))
      end
  | BySetSliceI _ => None
  end.

(** A map or a slice. *)
Definition is_container (c : value) : Prop :=
  (∃ a, c = VMapSI a) ∨ (∃ a, c = VMapII a) ∨ (∃ a, c = VSliceI a).

(** ** Example data *)

(** The document of the README:
    [{"root": {"title": "example json", "contents": ["c1", "c2", "c3"]}}]. *)
Definition readme_store : store :=
  Store
    (<[1%positive := {[ "root"%string := VMapSI 2 ]}]>
       {[ 2%positive :=
            <[ "title"%string := VString "example json" ]>
              {[ "contents"%string := VSliceI 3 ]} ]})
    ∅
    {[ 3%positive := [VString "c1"; VString "c2"; VString "c3"] ]}.

Definition readme_root : DMap := Init (VMapSI 1).

(** A [map[interface{}]interface{}] with an [int] key and a [float64] key
    (the bit pattern of [+0]). *)
Definition scalar_keyed_store : store :=
  Store ∅
    {[ 1%positive := [(VInt 1, VString "one"); (VFloat64 0, VString "zero")] ]}
    ∅.

(** Bit patterns of a quiet NaN and of [-0]. *)
Definition nan_bits : Z := 0x7FF8000000000000.
Definition negative_zero_bits : Z := 0x8000000000000000.

(** ** Properties of the traversal *)

Section Traversal.
Variable s : store.

(** One iteration of the loop: the entry the segment selects, or the
    failure of the step. *)
Lemma Get_loop_cons path i p rest cur :
  Get_loop s path i (p :: rest) cur =
  match child s cur p with
  | Some v => Get_loop s path (S i) rest v
  | None => step_failure cur p (take (S i) path)
  end.
Proof.
  destruct cur, p; simpl; try reflexivity.
  by destruct ((n <? 0) || (n >=? Z.of_nat (length (slice_elems s a)))).
Qed.

(** The loop looks at [path] only to report the prefix it has consumed. *)
Lemma Get_loop_ext path path' rest : ∀ i cur,
  take (i + length rest) path = take (i + length rest) path' →
  Get_loop s path i rest cur = Get_loop s path' i rest cur.
Proof.
  induction rest as [|p rest IH]; intros i cur Heq; [reflexivity|].
  rewrite !Get_loop_cons. simpl in Heq.
  assert (take (S i) path = take (S i) path') as ->.
  { rewrite <- (Nat.min_l (S i) (i + S (length rest))) by lia.
    by rewrite <- !take_take, Heq. }
  destruct (child s cur p); [|reflexivity].
  apply IH. by replace (S i + length rest)%nat with (i + S (length rest))%nat by lia.
Qed.

Lemma Get_loop_app path r2 : ∀ r1 i cur,
  Get_loop s path i (r1 ++ r2) cur =
  and_then (Get_loop s path i r1 cur)
    (λ d', Get_loop s path (i + length r1) r2 (Data d')).
Proof.
  induction r1 as [|p r1 IH]; intros i cur.
  - simpl. by rewrite Nat.add_0_r.
  - rewrite <- app_comm_cons, !Get_loop_cons.
    destruct (child s cur p) as [v|].
    + rewrite IH. simpl length. by rewrite Nat.add_succ_r.
    + by destruct cur, p; simpl; try destruct (hashable _).
Qed.

(** A successful result does not depend on [path] at all. *)
Lemma Get_loop_Ok_ext path path' rest d' : ∀ i i' cur,
  Get_loop s path i rest cur = Returns (Ok d') →
  Get_loop s path' i' rest cur = Returns (Ok d').
Proof.
  induction rest as [|p rest IH]; intros i i' cur; [done|].
  rewrite !Get_loop_cons. destruct (child s cur p); [apply IH|].
  by destruct cur, p; simpl; try destruct (hashable _).
Qed.

Lemma Get_unfold d path :
  HasData d = true ∨ path = [] →
  Get s d path = Get_loop s path 0 path (Data d).
Proof.
  unfold Get. intros [->| ->]; [reflexivity|]. simpl. by rewrite andb_false_r.
Qed.

Lemma Get_nil d : Get s d [] = Returns (Ok (Init (Data d))).
Proof. unfold Get. simpl. by rewrite andb_false_r. Qed.

Lemma Get_EmptyData d path :
  HasData d = false → path ≠ [] → Get s d path = Returns (Err errorEmptyData).
Proof.
  unfold Get. intros -> Hne. destruct path; [done|reflexivity].
Qed.

(** [Get] succeeds exactly when its loop does. *)
Lemma Get_Ok_iff d path d' :
  Get s d path = Returns (Ok d') ↔
  Get_loop s path 0 path (Data d) = Returns (Ok d').
Proof.
  destruct (HasData d) eqn:Hd.
  - by rewrite Get_unfold by auto.
  - destruct path as [|p rest]; [by rewrite Get_unfold by auto|].
    rewrite Get_EmptyData by done. split; [done|].
    rewrite Get_loop_cons. unfold HasData, Data in *.
    by destruct (data d).
Qed.

Lemma Get_Ok_HasData d path d' :
  Get s d path = Returns (Ok d') → HasData d = true ∨ path = [].
Proof.
  destruct (HasData d) eqn:Hd; [auto|]. destruct path; [auto|].
  by rewrite Get_EmptyData.
Qed.

(** Resolving a prefix and going on from there. *)
Lemma Get_split d path i d' :
  HasData d = true ∨ (0 < i)%nat →
  Get s d (take i path) = Returns (Ok d') →
  Get s d path = Get_loop s path i (drop i path) (Data d').
Proof.
  intros Hi Hpre.
  destruct (decide (length path ≤ i)%nat) as [Hle|Hlt].
  { rewrite take_ge in Hpre by done. rewrite drop_ge by done. rewrite Hpre. by destruct d'. }
  assert (HasData d = true ∨ path = []) as Hd.
  { destruct Hi as [?|Hi]; [auto|].
    destruct (Get_Ok_HasData _ _ _ Hpre) as [?|Hnil]; [auto|].
    destruct i; [lia|]. destruct path; [auto|done]. }
  rewrite Get_unfold by done.
  apply Get_Ok_iff in Hpre.
  rewrite <- (take_drop i path) at 2. rewrite Get_loop_app.
  rewrite (Get_loop_Ok_ext _ path _ _ _ 0%nat _ Hpre). simpl.
  rewrite length_take. by replace (i `min` length path)%nat with i by lia.
Qed.
End Traversal.

(** ** The empty path and the absent root *)

(** C7: on a node that wraps nil, [Get] with a path that is not empty fails
    with the empty-data error, whatever the store and the segments are: no
    step is taken. *)
Theorem Get_nil_root_EmptyData (s : store) (d : DMap) (path : list value) :
  Data d = VNil → path ≠ [] → Get s d path = Returns (Err errorEmptyData).
Proof.
  intros Hd Hne. apply Get_EmptyData; [|done].
  unfold HasData, Data in *. by rewrite Hd.
Qed.

Lemma Get_nil_root_EmptyData_witness :
  Get readme_store (Init VNil) [VString "root"; VInt 0] =
  Returns (Err errorEmptyData).
Proof. apply Get_nil_root_EmptyData; [reflexivity | discriminate]. Defined.

(** C8: on a node that wraps a value other than nil, [Get] with the empty
    path succeeds, and the node it returns wraps what [Data] returns. *)
Theorem Get_empty_path (s : store) (d : DMap) :
  HasData d = true →
  ∃ d', Get s d [] = Returns (Ok d') ∧ Data d' = Data d.
Proof. intros _. exists (Init (Data d)). by rewrite Get_nil. Qed.

Lemma Get_empty_path_witness :
  ∃ d', Get readme_store readme_root [] = Returns (Ok d') ∧
        Data d' = Data readme_root.
Proof. apply Get_empty_path. reflexivity. Defined.

(** C9: on the node that wraps nil, [Get] with the empty path succeeds all
    the same and returns a node wrapping nil, and [Exists] with the empty
    path is true, although [HasData] is false. *)
Theorem Get_empty_path_nil_root (s : store) :
  Get s (Init VNil) [] = Returns (Ok (Init VNil)) ∧
  Exists s (Init VNil) [] = Returns true ∧
  HasData (Init VNil) = false.
Proof. done. Qed.

(** ** The steps of the traversal *)

Lemma Get_prefix_HasData (s : store) (d : DMap) (path : list value) (i : nat)
    (c : value) :
  Get s d (take i path) = Returns (Ok (Init c)) → c ≠ VNil →
  HasData d = true ∨ (0 < i)%nat.
Proof.
  intros Hq Hc. destruct i as [|i]; [|right; lia].
  left. rewrite take_0, Get_nil in Hq. injection Hq as Hq.
  unfold HasData, Data in *. by destruct (data d).
Qed.

(** The traversal after step [i], from the value reached before it. *)
Lemma Get_at_step (s : store) (d : DMap) (path : list value) (i : nat)
    (cur p : value) :
  Get s d (take i path) = Returns (Ok (Init cur)) →
  HasData d = true ∨ (0 < i)%nat →
  path !! i = Some p →
  Get s d path =
    match child s cur p with
    | Some v => Get_loop s path (S i) (drop (S i) path) v
    | None => step_failure cur p (take (S i) path)
    end
  ∧ Get s d (take (S i) path) =
    match child s cur p with
    | Some v => Returns (Ok (Init v))
    | None => step_failure cur p (take (S i) path)
    end.
Proof.
  intros Hpre Hd Hp.
  assert (i < length path)%nat as Hi by (by eapply lookup_lt_Some).
  split.
  - rewrite (Get_split s d path i _ Hd Hpre).
    rewrite (drop_S _ _ _ Hp). apply Get_loop_cons.
  - rewrite (Get_split s d (take (S i) path) i (Init cur)); cycle 1.
    { done. }
    { rewrite take_take. by replace (i `min` S i)%nat with i by lia. }
    rewrite (take_S_r _ _ _ Hp), drop_app_length'; cycle 1.
    { rewrite length_take. lia. }
    rewrite Get_loop_cons. rewrite <- (take_S_r _ _ _ Hp).
    rewrite take_take, Nat.min_id. change (Data (Init cur)) with cur.
    by destruct (child s cur p).
Qed.

(** C1: at a step [i] of [Get] where the current value is a
    [map[string]interface{}]: a segment that is not a string gives the
    expected-key error with the segment, its type and the path up to and
    including the step; a string that is not a key of the map gives the
    key-not-found error with the key and that prefix; otherwise the
    traversal goes on from the value stored under the key. *)
Theorem Get_step_MapSI (s : store) (d : DMap) (path : list value) (i : nat)
    (a : addr) (p : value) :
  Get s d (take i path) = Returns (Ok (Init (VMapSI a))) →
  path !! i = Some p →
  ((∀ key, p ≠ VString key) →
     Get s d path =
       Returns (Err (errorExpectedKey p (type_of p) (take (S i) path))))
  ∧ (∀ key, p = VString key → mapSI_index s a key = None →
     Get s d path =
       Returns (Err (errorKeyNotFound (VString key) (take (S i) path))))
  ∧ (∀ key v, p = VString key → mapSI_index s a key = Some v →
     Get s d (take (S i) path) = Returns (Ok (Init v)) ∧
     Get s d path = Get_loop s path (S i) (drop (S i) path) v).
Proof.
  intros Hpre Hp.
  destruct (Get_at_step s d path i _ p Hpre) as [Hall Hone]; [|done|].
  { by eapply Get_prefix_HasData. }
  split; [|split].
  - intros Hkey. rewrite Hall.
    destruct p; try reflexivity. by destruct (Hkey str).
  - intros key -> Hnone. rewrite Hall. simpl. by rewrite Hnone.
  - intros key v -> Hsome. rewrite Hall, Hone. simpl. by rewrite Hsome.
Qed.

Lemma Get_step_MapSI_witness :
  Get readme_store readme_root [VString "root"; VString "title"] =
  Get_loop readme_store [VString "root"; VString "title"] 2 []
    (VString "example json").
Proof.
  refine (proj2 (proj2 (proj2
    (Get_step_MapSI readme_store readme_root
       [VString "root"; VString "title"] 1 2 (VString "title") _ _))
    "title"%string (VString "example json") _ _));
  by vm_compute.
Defined.

(** C2: at a step [i] of [Get] where the current value is a
    [[]interface{}]: a segment that is not an [int] gives the expected-index
    error; an [int] that is negative or not below the length gives the
    index-out-of-range error; otherwise the traversal goes on from the
    element at that index. *)
Theorem Get_step_SliceI (s : store) (d : DMap) (path : list value) (i : nat)
    (a : addr) (p : value) :
  Get s d (take i path) = Returns (Ok (Init (VSliceI a))) →
  path !! i = Some p →
  ((∀ index, p ≠ VInt index) →
     Get s d path =
       Returns (Err (errorExpectedIndex p (type_of p) (take (S i) path))))
  ∧ (∀ index, p = VInt index →
     index < 0 ∨ Z.of_nat (length (slice_elems s a)) ≤ index →
     Get s d path =
       Returns (Err (errorIndexOutOfRange index (take (S i) path))))
  ∧ (∀ index, p = VInt index →
     0 ≤ index < Z.of_nat (length (slice_elems s a)) →
     ∃ v, slice_elems s a !! Z.to_nat index = Some v ∧
       Get s d (take (S i) path) = Returns (Ok (Init v)) ∧
       Get s d path = Get_loop s path (S i) (drop (S i) path) v).
Proof.
  intros Hpre Hp.
  destruct (Get_at_step s d path i _ p Hpre) as [Hall Hone]; [|done|].
  { by eapply Get_prefix_HasData. }
  split; [|split].
  - intros Hidx. rewrite Hall.
    destruct p; try reflexivity. by destruct (Hidx n).
  - intros index -> Hout. rewrite Hall. simpl.
    destruct (index <? 0) eqn:Hneg; [done|].
    destruct (index >=? _) eqn:Hge; [done|]. lia.
  - intros index -> Hin. rewrite Hall, Hone. simpl.
    destruct (index <? 0) eqn:Hneg; [lia|].
    destruct (index >=? _) eqn:Hge; [lia|]. simpl.
    exists (nth (Z.to_nat index) (slice_elems s a) VNil). split; [|done].
    destruct (nth_lookup_or_length (slice_elems s a) (Z.to_nat index) VNil)
      as [Hnth|Hlen]; [done|lia].
Qed.

Lemma Get_step_SliceI_witness :
  ∃ v, slice_elems readme_store 3 !! Z.to_nat 1 = Some v ∧
    Get readme_store readme_root
      (take 3 [VString "root"; VString "contents"; VInt 1]) =
      Returns (Ok (Init v)) ∧
    Get readme_store readme_root [VString "root"; VString "contents"; VInt 1] =
      Get_loop readme_store [VString "root"; VString "contents"; VInt 1] 3
        (drop 3 [VString "root"; VString "contents"; VInt 1]) v.
Proof.
  refine (proj2 (proj2
    (Get_step_SliceI readme_store readme_root
       [VString "root"; VString "contents"; VInt 1] 2 3 (VInt 1) _ _))
    1 _ _); by vm_compute.
Defined.

(** ** Errors and the path they report *)

Lemma step_failure_error (cur p : value) (prefix : list value) (e : error) :
  step_failure cur p prefix = Returns (Err e) →
  error_path e = Some prefix ∧ e ≠ errorEmptyData.
Proof.
  destruct cur, p; simpl; intros [= <-]; done.
Qed.

(** An error of the loop is the failure of one step, after the steps before
    it went through. *)
Lemma Get_loop_error (s : store) (path : list value) (e : error) :
  ∀ rest i cur,
    Get_loop s path i rest cur = Returns (Err e) →
    ∃ j c p,
      rest !! j = Some p ∧
      Get_loop s path i (take j rest) cur = Returns (Ok (Init c)) ∧
      child s c p = None ∧
      step_failure c p (take (S (i + j)) path) = Returns (Err e).
Proof.
  induction rest as [|p rest IH]; intros i cur; [done|].
  rewrite Get_loop_cons. destruct (child s cur p) as [v|] eqn:Hchild.
  - intros (j & c & p' & Hp' & Hpre & Hnone & Hfail)%IH.
    exists (S j), c, p'. split; [done|]. split; [|split; [done|]].
    + simpl take. by rewrite Get_loop_cons, Hchild.
    + by rewrite Nat.add_succ_r.
  - intros Hfail. exists 0%nat, cur, p. by rewrite Nat.add_0_r.
Qed.

(** C6, for the errors of the steps: every error returned by [Get] other
    than the empty-data error reports the path up to and including the step
    that failed, that is [path[:i+1]] where the first [i] segments resolve
    and the segment at [i] does not. *)
Theorem Get_error_reports_prefix (s : store) (d : DMap) (path : list value)
    (e : error) :
  Get s d path = Returns (Err e) → e ≠ errorEmptyData →
  ∃ i, (i < length path)%nat ∧
    error_path e = Some (take (S i) path) ∧
    (∃ d', Get s d (take i path) = Returns (Ok d')) ∧
    Get s d (take (S i) path) = Returns (Err e).
Proof.
  intros Hget Hne.
  assert (HasData d = true) as Hd.
  { destruct (HasData d) eqn:Hd; [done|]. destruct path as [|p path].
    - by rewrite Get_nil in Hget.
    - rewrite Get_EmptyData in Hget by done. by injection Hget as <-. }
  rewrite Get_unfold in Hget by auto.
  apply Get_loop_error in Hget as (j & c & p & Hp & Hpre & Hchild & Hfail).
  assert (Get s d (take j path) = Returns (Ok (Init c))) as Hpre'.
  { apply Get_Ok_iff. by eapply Get_loop_Ok_ext. }
  exists j. split; [by eapply lookup_lt_Some|].
  simpl in Hfail. split; [by eapply step_failure_error|].
  split; [by eexists|].
  destruct (Get_at_step s d path j c p Hpre' (or_introl Hd) Hp) as [_ Hone].
  by rewrite Hone, Hchild.
Qed.

Lemma Get_error_reports_prefix_witness :
  ∃ i, (i < 3)%nat ∧
    error_path
      (errorIndexOutOfRange 5 [VString "root"; VString "contents"; VInt 5]) =
      Some (take (S i) [VString "root"; VString "contents"; VInt 5]) ∧
    (∃ d', Get readme_store readme_root
             (take i [VString "root"; VString "contents"; VInt 5]) =
           Returns (Ok d')) ∧
    Get readme_store readme_root
      (take (S i) [VString "root"; VString "contents"; VInt 5]) =
      Returns (Err (errorIndexOutOfRange 5
                      [VString "root"; VString "contents"; VInt 5])).
Proof.
  apply (Get_error_reports_prefix readme_store readme_root
           [VString "root"; VString "contents"; VInt 5]); by vm_compute.
Defined.

(** The empty-data error reports no path: on the node that wraps nil, the
    error of [Get] with a one-segment path holds no prefix of that path. *)
Lemma Get_EmptyData_reports_no_path :
  ¬ (∀ e, Get empty_store (Init VNil) [VString "root"] = Returns (Err e) →
          ∃ i, error_path e = Some (take (S i) [VString "root"])).
Proof.
  intros H. destruct (H errorEmptyData) as [i Hi]; [reflexivity|].
  discriminate Hi.
Qed.

(** ** Panics *)

Lemma step_failure_returns (cur p : value) (prefix : list value) :
  hashable p = true → ∃ e, step_failure cur p prefix = Returns (Err e).
Proof.
  intros Hp. destruct cur; simpl; try rewrite Hp; try by eexists.
  all: destruct p; by eexists.
Qed.

Lemma Get_loop_returns (s : store) (path : list value) :
  ∀ rest i cur,
    Forall (λ p, hashable p = true) rest →
    ∃ r, Get_loop s path i rest cur = Returns r.
Proof.
  induction rest as [|p rest IH]; intros i cur Hrest; [by eexists|].
  apply Forall_cons in Hrest as [Hp Hrest].
  rewrite Get_loop_cons. destruct (child s cur p) as [v|]; [by apply IH|].
  destruct (step_failure_returns cur p (take (S i) path) Hp) as [e ->].
  by eexists.
Qed.

(** C10: when every segment of the path can be hashed, [Get] returns, and
    returns either a node or an error; it does not panic.  The condition is
    needed: on a [map[interface{}]interface{}] a first segment that cannot
    be hashed is looked up as it is, and that panics. *)
Theorem Get_returns_on_hashable_path (s : store) (d : DMap)
    (path : list value) :
  (Forall (λ p, hashable p = true) path →
   (∃ d', Get s d path = Returns (Ok d')) ∨
   (∃ e, Get s d path = Returns (Err e)))
  ∧ (∀ a p, hashable p = false →
     Get s (Init (VMapII a)) (p :: path) =
       Panics (panicUnhashable (type_of p))).
Proof.
  split.
  - intros Hpath. unfold Get. destruct (_ && _); [right; by eexists|].
    destruct (Get_loop_returns s path path 0%nat (Data d) Hpath) as [[d'|e] ->];
      [left|right]; by eexists.
  - intros a p Hp. unfold Get. simpl. by rewrite Hp.
Qed.

Lemma Get_returns_on_hashable_path_witness :
  (∃ d', Get readme_store readme_root [VString "root"; VInt 5] =
           Returns (Ok d')) ∨
  (∃ e, Get readme_store readme_root [VString "root"; VInt 5] =
          Returns (Err e)).
Proof.
  apply (Get_returns_on_hashable_path readme_store readme_root
           [VString "root"; VInt 5]).
  repeat constructor.
Defined.

(** ** Resolving a path in two calls *)

Lemma rebase_step_failure (path : list value) (seg cur : value)
    (prefix : list value) :
  match step_failure cur seg prefix with
  | Returns (Err e) => Returns (Err (rebase path seg e))
  | o => o
  end = step_failure cur seg (path ++ [seg]).
Proof. destruct cur, seg; reflexivity. Qed.

Lemma Get_one_segment (s : store) (c seg : value) :
  c ≠ VNil →
  Get s (Init c) [seg] =
    match child s c seg with
    | Some v => Returns (Ok (Init v))
    | None => step_failure c seg [seg]
    end.
Proof.
  intros Hc. rewrite Get_unfold; [|left; destruct c; done || congruence].
  rewrite Get_loop_cons. change (Data (Init c)) with c.
  by destruct (child s c seg).
Qed.

(** How the one call on [path ++ [seg]] relates to the two calls. *)
Lemma Get_snoc (s : store) (d : DMap) (path : list value) (seg : value) :
  Get s d (path ++ [seg]) =
    and_then (Get s d path)
      (λ d', match Get s d' [seg] with
             | Returns (Err e) => Returns (Err (rebase path seg e))
             | o => o
             end).
Proof.
  destruct (HasData d) eqn:Hd.
  - rewrite !Get_unfold by auto. rewrite Get_loop_app.
    rewrite (Get_loop_ext s (path ++ [seg]) path path 0 (Data d)); cycle 1.
    { simpl. by rewrite take_app_length, take_ge. }
    destruct (Get_loop s path 0 path (Data d)) as [[[c]|e]|x] eqn:Hpre; try done.
    unfold and_then. rewrite Nat.add_0_l, Get_loop_cons.
    rewrite take_ge by (rewrite length_app; simpl; lia).
    change (Data (Init c)) with c.
    destruct (decide (c = VNil)) as [->|Hc].
    + destruct path as [|p path]; [|reflexivity].
      simpl in Hpre. injection Hpre as Hpre.
      unfold HasData, Data in *. by rewrite Hpre in Hd.
    + rewrite Get_one_segment by done.
      destruct (child s c seg); [done|]. by rewrite rebase_step_failure.
  - destruct path as [|p path].
    + rewrite Get_nil. simpl.
      assert (Data d = VNil) as -> by (unfold HasData, Data in *; by destruct (data d)).
      by rewrite !Get_EmptyData.
    + by rewrite !Get_EmptyData.
Qed.

(** C3, up to the path reported: resolving [path] and then one more segment
    [seg] from the result succeeds, fails or panics exactly when resolving
    [path ++ [seg]] in one call does, and on success the two give the same
    node.  An error
    met within [path] is the same in both.  An error met at [seg] has the
    same kind and arguments in both, but the two calls report the path
    [[seg]] where the one call reports [path ++ [seg]]; and when [path] is
    not empty and resolves to nil, the two calls fail with the empty-data
    error where the one call fails with the unexpected-type error. *)
Theorem Get_then_vs_Get (s : store) (d : DMap) (path : list value)
    (seg : value) :
  (∀ d'', Get_then s d path seg = Returns (Ok d'') ↔
          Get s d (path ++ [seg]) = Returns (Ok d''))
  ∧ ((∃ e, Get_then s d path seg = Returns (Err e)) ↔
     (∃ e, Get s d (path ++ [seg]) = Returns (Err e)))
  ∧ (∀ x, Get_then s d path seg = Panics x ↔
          Get s d (path ++ [seg]) = Panics x)
  ∧ (∀ e, Get s d path = Returns (Err e) →
          Get_then s d path seg = Returns (Err e) ∧
          Get s d (path ++ [seg]) = Returns (Err e))
  ∧ (∀ d' e, Get s d path = Returns (Ok d') →
          Get s d' [seg] = Returns (Err e) →
          Get_then s d path seg = Returns (Err e) ∧
          Get s d (path ++ [seg]) = Returns (Err (rebase path seg e))).
Proof.
  rewrite Get_snoc. unfold Get_then.
  destruct (Get s d path) as [[d'|e]|x]; simpl.
  - destruct (Get s d' [seg]) as [[d''|e]|x] eqn:Hlast; simpl.
    all: repeat split; try done; try (by intros [? ?]); try (by eexists).
    all: simplify_eq; congruence.
  - repeat split; try done; try (by intros [? ?]); try (by eexists).
    all: by intros ? [= <-].
  - repeat split; try done; try (by intros [? ?]).
Qed.

Lemma Get_then_vs_Get_witness :
  Get_then readme_store readme_root [VString "root"] (VString "missing") =
    Returns (Err (errorKeyNotFound (VString "missing") [VString "missing"])) ∧
  Get readme_store readme_root ([VString "root"] ++ [VString "missing"]) =
    Returns (Err (rebase [VString "root"] (VString "missing")
      (errorKeyNotFound (VString "missing") [VString "missing"]))).
Proof.
  refine (proj2 (proj2 (proj2 (proj2
    (Get_then_vs_Get readme_store readme_root [VString "root"]
       (VString "missing")))))
    (Init (VMapSI 2)) _ _ _); by vm_compute.
Defined.

(** The two calls and the one call do not return the same error when the
    last segment fails: the paths reported differ. *)
Lemma Get_then_error_differs :
  Get_then readme_store readme_root [VString "root"] (VString "missing") ≠
  Get readme_store readme_root ([VString "root"] ++ [VString "missing"]).
Proof. vm_compute. discriminate. Qed.

(** ** Map keys *)

Lemma Float64_eqb_trans_l (x y z : Z) :
  Float64.eqb x y = true → Float64.eqb x z = true → Float64.eqb y z = true.
Proof.
  unfold Float64.eqb.
  destruct (Float64.is_nan x), (Float64.is_nan y), (Float64.is_nan z);
    cbn [orb]; try discriminate.
  destruct (Float64.is_zero x) eqn:Hx, (Float64.is_zero y) eqn:Hy,
    (Float64.is_zero z) eqn:Hz; cbn [andb]; try reflexivity.
  all: intros Hxy Hxz; try apply Z.eqb_eq in Hxy; try apply Z.eqb_eq in Hxz;
    subst; try congruence.
  by apply Z.eqb_eq.
Qed.

(** Two keys equal to a third are equal. *)
Lemma key_eq_trans_l (a b c : value) :
  key_eq a b = true → key_eq a c = true → key_eq b c = true.
Proof.
  destruct a, b; simpl; try done; destruct c; simpl; try done.
  - destruct b0, b, b1; done.
  - intros ->%Z.eqb_eq ->%Z.eqb_eq. apply Z.eqb_refl.
  - apply Float64_eqb_trans_l.
  - intros ->%bool_decide_eq_true ->%bool_decide_eq_true.
    by apply bool_decide_eq_true.
Qed.

Lemma mapII_lookup_assign_eq (m : list (value * value)) (key v : value) :
  key_eq key key = true → mapII_lookup (mapII_assign m key v) key = Some v.
Proof.
  intros Hrefl. induction m as [|[k' v'] m IH]; simpl.
  - by rewrite Hrefl.
  - destruct (key_eq k' key) eqn:Hk; simpl; by rewrite ?Hrefl, ?Hk.
Qed.

Lemma mapII_lookup_assign_ne (m : list (value * value)) (key v p : value) :
  key_eq key p = false →
  mapII_lookup (mapII_assign m key v) p = mapII_lookup m p.
Proof.
  intros Hne. induction m as [|[k' v'] m IH]; simpl.
  - by rewrite Hne.
  - destruct (key_eq k' key) eqn:Hk; simpl.
    + rewrite Hne. destruct (key_eq k' p) eqn:Hp; [|done].
      by rewrite (key_eq_trans_l _ _ _ Hk Hp) in Hne.
    + by rewrite IH.
Qed.

(** ** Failing setters *)



(** ** What a write changes *)

Lemma valid_target_allocated (s : store) (st : setter) (parent : value) :
  valid_target s st parent → allocated s parent.
Proof.
  destruct st, parent; simpl; try done.
  - by intros [? _].
  - unfold slice_elems. destruct (slicesI s !! a); [done|]. simpl. lia.
Qed.

(** A setter on a valid target writes one entry of the parent and nothing
    else in the store. *)
Lemma call_setter_valid (st : setter) (s : store) (d : DMap) (v : value)
    (path : list value) (parent : value) :
  Get s d path = Returns (Ok (Init parent)) →
  valid_target s st parent →
  ∃ s', call_setter st s d v path = (s', Returns None) ∧
    child s' parent (segment_of st) = Some v ∧
    (∀ p, key_eq (segment_of st) p = false →
          child s' parent p = child s parent p) ∧
    (∀ c p, c ≠ parent → child s' c p = child s c p).
Proof.
  intros Hget Hvalid. destruct st, parent; simpl in Hvalid; try done.
  - destruct Hvalid as [m Hm]. eexists. split; [|split; [|split]].
    + simpl. unfold SetMapSI, GetMapSI. rewrite Hget. simpl. by rewrite Hm.
    + simpl. unfold mapSI_index. simpl. by rewrite !lookup_insert_eq.
    + intros p Hp. destruct p; simpl in *; try done.
      unfold mapSI_index. simpl. rewrite lookup_insert_eq, Hm.
      apply lookup_insert_ne. intros ->. by rewrite bool_decide_eq_true_2 in Hp.
    + intros c p Hc. destruct c; simpl; try done.
      destruct p; try done. unfold mapSI_index. simpl.
      rewrite lookup_insert_ne; [done|congruence].
  - destruct Hvalid as ([m Hm] & Hhash & Hrefl).
    eexists. split; [|split; [|split]].
    + simpl. unfold SetMapII, GetMapII. rewrite Hget. simpl.
      by rewrite Hm, Hhash.
    + simpl. rewrite Hhash. unfold mapII_index. simpl.
      rewrite lookup_insert_eq. by apply mapII_lookup_assign_eq.
    + intros p Hp. simpl in *. destruct (hashable p); [|done].
      unfold mapII_index. simpl. rewrite lookup_insert_eq, Hm.
      by apply mapII_lookup_assign_ne.
    + intros c p Hc. destruct c; simpl; try done.
      destruct (hashable p); [|done]. unfold mapII_index. simpl.
      rewrite lookup_insert_ne; [done|congruence].
  - assert ((index <? 0) || (index >=? Z.of_nat (length (slice_elems s a)))
            = false) as Hin.
    { apply orb_false_intro; lia. }
    assert (∀ a', slice_elems
              (Store (mapsSI s) (mapsII s)
                 (<[a := <[Z.to_nat index := v]> (slice_elems s a)]> (slicesI s)))
              a' =
            if decide (a' = a) then <[Z.to_nat index := v]> (slice_elems s a)
            else slice_elems s a') as Helems.
    { intros a'. unfold slice_elems at 1. simpl. case_decide as Ha.
      - subst. by rewrite lookup_insert_eq.
      - by rewrite lookup_insert_ne. }
    eexists. split; [|split; [|split]].
    + simpl. unfold SetSliceI, GetSliceI. rewrite Hget. simpl. by rewrite Hin.
    + simpl. rewrite Helems, decide_True by done.
      rewrite length_insert, Hin. f_equal.
      apply nth_lookup_Some, list_lookup_insert_eq. lia.
    + intros p Hp. destruct p; simpl in *; try done.
      rewrite Helems, decide_True by done. rewrite length_insert.
      destruct ((n <? 0) || _) eqn:Hn; [done|]. f_equal.
      rewrite !nth_lookup, list_lookup_insert_ne; [done|].
      apply orb_false_elim in Hn as [Hn _]. lia.
    + intros c p Hc. destruct c; simpl; try done.
      destruct p; try done.
      rewrite Helems, decide_False; [done|congruence].
Qed.

(** ** Framing the traversal *)

(** A traversal that reads no entry on which two stores differ gives the
    same in both. *)
Lemma Get_loop_frame (s s' : store) (path : list value)
    (hit : value → value → Prop) :
  (∀ c p, ¬ hit c p → child s' c p = child s c p) →
  ∀ rest i cur,
    (∀ j c p, rest !! j = Some p →
       Get_loop s path i (take j rest) cur = Returns (Ok (Init c)) →
       ¬ hit c p) →
    Get_loop s' path i rest cur = Get_loop s path i rest cur.
Proof.
  intros Hagree. induction rest as [|p rest IH]; intros i cur Hmiss; [done|].
  rewrite !Get_loop_cons.
  rewrite (Hagree cur p) by (by apply (Hmiss 0%nat)).
  destruct (child s cur p) as [v|] eqn:Hchild; [|done].
  apply IH. intros j c p' Hp' Hpre. apply (Hmiss (S j)); [done|].
  simpl take. by rewrite Get_loop_cons, Hchild.
Qed.

Lemma Get_frame (s s' : store) (d : DMap) (q : list value)
    (hit : value → value → Prop) :
  (∀ c p, ¬ hit c p → child s' c p = child s c p) →
  (∀ j c p, q !! j = Some p →
     Get s d (take j q) = Returns (Ok (Init c)) → ¬ hit c p) →
  Get s' d q = Get s d q.
Proof.
  intros Hagree Hmiss. unfold Get. destruct (_ && _); [done|].
  apply (Get_loop_frame s s' q hit Hagree). intros j c p Hp Hpre.
  apply (Hmiss j c p Hp). apply Get_Ok_iff. by eapply Get_loop_Ok_ext.
Qed.

Lemma same_segment_refl_all (q : list value) : Forall2 same_segment q q.
Proof. apply Forall_Forall2_diag, Forall_forall. intros p _. by left. Qed.

(** ** Reading after writing *)

(** In a tree, no step of the traversal of [path] starts from the container
    that [path] resolves to. *)
Lemma tree_path_misses_target (s : store) (d : DMap) (path : list value)
    (parent : value) (j : nat) (p : value) :
  tree_shaped s d → allocated s parent →
  Get s d path = Returns (Ok (Init parent)) →
  path !! j = Some p →
  Get s d (take j path) ≠ Returns (Ok (Init parent)).
Proof.
  intros Htree Halloc Hget Hp Hpre.
  pose proof (Forall2_length _ _ _ (Htree _ _ _ Halloc Hpre Hget)) as Hlen.
  apply lookup_lt_Some in Hp. rewrite length_take in Hlen. lia.
Qed.

(** In a tree, a path with a step from the container at [path] under a
    segment equal to [seg] goes through [path ++ [seg]]. *)
Lemma tree_hit_passes_through (s : store) (d : DMap) (path q : list value)
    (parent seg : value) (j : nat) (p : value) :
  tree_shaped s d → allocated s parent →
  Get s d path = Returns (Ok (Init parent)) →
  q !! j = Some p →
  Get s d (take j q) = Returns (Ok (Init parent)) →
  key_eq seg p = true →
  passes_through (path ++ [seg]) q.
Proof.
  intros Htree Halloc Hget Hp Hpre Hseg.
  exists (take (S j) q), (drop (S j) q). split; [by rewrite take_drop|].
  rewrite (take_S_r _ _ _ Hp). apply Forall2_app.
  - by apply (Htree _ _ _ Halloc Hget Hpre).
  - constructor; [by right|constructor].
Qed.

(** C4, for parents that can be written and storage that is not shared: in
    a tree (every map and every backing array of a slice is reached by one
    path only, so that no two slice values of the data share a backing
    array), a typed setter whose parent path resolves to a container of its
    shape that can be written (a map that is not nil, with a key that can be
    hashed and is not a NaN; a slice with the index inside it) succeeds;
    [Get] of the written path then returns the written value; every other
    entry of the parent and every entry of every other container is as
    before; and every path that does not go through the written entry
    resolves as before. *)
Theorem setter_read_after_write (st : setter) (s : store) (d : DMap)
    (v : value) (path : list value) (parent : value) :
  tree_shaped s d →
  Get s d path = Returns (Ok (Init parent)) →
  valid_target s st parent →
  ∃ s', call_setter st s d v path = (s', Returns None) ∧
    Get s' d (path ++ [segment_of st]) = Returns (Ok (Init v)) ∧
    (∀ p, key_eq (segment_of st) p = false →
          child s' parent p = child s parent p) ∧
    (∀ c p, c ≠ parent → child s' c p = child s c p) ∧
    (∀ q, ¬ passes_through (path ++ [segment_of st]) q →
          Get s' d q = Get s d q).
Proof.
  intros Htree Hget Hvalid.
  pose proof (valid_target_allocated _ _ _ Hvalid) as Halloc.
  destruct (call_setter_valid st s d v path parent Hget Hvalid)
    as (s' & Hcall & Hnew & Hsib & Hother).
  set (hit := λ c p : value, c = parent ∧ key_eq (segment_of st) p = true).
  assert (∀ c p, ¬ hit c p → child s' c p = child s c p) as Hagree.
  { intros c p Hmiss. destruct (decide (c = parent)) as [->|Hc].
    - apply Hsib. destruct (key_eq (segment_of st) p) eqn:Hp; [|done].
      by destruct Hmiss.
    - by apply Hother. }
  exists s'. split; [done|]. split; [|split; [done|split; [done|]]].
  - rewrite Get_snoc.
    rewrite (Get_frame s s' d path hit Hagree); cycle 1.
    { intros j c p Hp Hpre [-> _].
      exact (tree_path_misses_target s d path parent j p
               Htree Halloc Hget Hp Hpre). }
    rewrite Hget. simpl and_then.
    rewrite Get_one_segment by (by destruct parent).
    by rewrite Hnew.
  - intros q Hq. apply (Get_frame s s' d q hit Hagree).
    intros j c p Hp Hpre [-> Hseg]. apply Hq.
    by eapply tree_hit_passes_through.
Qed.

(** ** The README document *)

(** The containers of the README document and the paths to them. *)
Lemma readme_containers (q : list value) (c : value) :
  Get readme_store readme_root q = Returns (Ok (Init c)) →
  allocated readme_store c →
  (q = [] ∧ c = VMapSI 1)
  ∨ (q = [VString "root"] ∧ c = VMapSI 2)
  ∨ (q = [VString "root"; VString "contents"] ∧ c = VSliceI 3).
Proof.
  intros Hget Halloc. destruct q as [|p1 q].
  { left. rewrite Get_nil in Hget. by simplify_eq. }
  right. rewrite Get_unfold in Hget by (by left).
  rewrite Get_loop_cons in Hget. change (Data readme_root) with (VMapSI 1) in Hget.
  destruct p1 as [| | | |k1| | |]; try done.
  assert (child readme_store (VMapSI 1) (VString k1) =
          if decide (k1 = "root"%string) then Some (VMapSI 2) else None) as Hc1.
  { simpl. unfold mapSI_index, readme_store. simpl. rewrite lookup_insert_eq.
    case_decide as Hk; [subst; by rewrite lookup_singleton_eq|].
    by rewrite lookup_singleton_ne. }
  rewrite Hc1 in Hget. case_decide as Hk1; [subst k1|done].
  destruct q as [|p2 q].
  { left. simpl in Hget. by simplify_eq. }
  right. rewrite Get_loop_cons in Hget.
  destruct p2 as [| | | |k2| | |]; try done.
  assert (child readme_store (VMapSI 2) (VString k2) =
          if decide (k2 = "title"%string) then Some (VString "example json")
          else if decide (k2 = "contents"%string) then Some (VSliceI 3)
          else None) as Hc2.
  { simpl. unfold mapSI_index, readme_store. simpl.
    rewrite lookup_insert_ne, lookup_singleton_eq by done.
    case_decide as Hk; [subst; by rewrite lookup_insert_eq|].
    rewrite lookup_insert_ne by done.
    case_decide as Hk'; [subst; by rewrite lookup_singleton_eq|].
    by rewrite lookup_singleton_ne. }
  rewrite Hc2 in Hget. case_decide as Hk2.
  { destruct q as [|p3 q]; [simpl in Hget; simplify_eq; done|].
    by rewrite Get_loop_cons in Hget. }
  case_decide as Hk2'; [subst k2|done].
  destruct q as [|p3 q]; [simpl in Hget; by simplify_eq|].
  exfalso. rewrite Get_loop_cons in Hget.
  destruct p3 as [| |n| | | | |]; try done.
  assert (child readme_store (VSliceI 3) (VInt n) = None ∨
          ∃ v, child readme_store (VSliceI 3) (VInt n) = Some v ∧
               hashable v = true) as [Hc3|(v & Hc3 & Hv)].
  { simpl. unfold slice_elems, readme_store. simpl. rewrite lookup_singleton_eq.
    destruct (_ || _); [by left|]. right. eexists. split; [done|].
    by destruct (Z.to_nat n) as [|[|[|[|i]]]]. }
  all: rewrite Hc3 in Hget; try done.
  destruct q as [|p4 q]; [simpl in Hget; simplify_eq; by destruct c|].
  rewrite Get_loop_cons in Hget. by destruct v.
Qed.

(** The README document is a tree. *)
Lemma readme_tree : tree_shaped readme_store readme_root.
Proof.
  intros q1 q2 c Halloc H1 H2.
  destruct (readme_containers q1 c H1 Halloc) as [[-> ->]|[[-> ->]|[-> ->]]];
    destruct (readme_containers q2 _ H2 Halloc) as [[-> ?]|[[-> ?]|[-> ?]]];
    try done; apply same_segment_refl_all.
Qed.

Lemma setter_read_after_write_witness :
  ∃ s', call_setter (BySetSliceI 1) readme_store readme_root
          (VString "changed") [VString "root"; VString "contents"] =
          (s', Returns None) ∧
    Get s' readme_root ([VString "root"; VString "contents"] ++ [VInt 1]) =
      Returns (Ok (Init (VString "changed"))) ∧
    (∀ p, key_eq (VInt 1) p = false →
          child s' (VSliceI 3) p = child readme_store (VSliceI 3) p) ∧
    (∀ c p, c ≠ VSliceI 3 → child s' c p = child readme_store c p) ∧
    (∀ q, ¬ passes_through
              ([VString "root"; VString "contents"] ++ [VInt 1]) q →
          Get s' readme_root q = Get readme_store readme_root q).
Proof.
  apply (setter_read_after_write (BySetSliceI 1) readme_store readme_root
           (VString "changed") [VString "root"; VString "contents"]
           (VSliceI 3)).
  - exact readme_tree.
  - by vm_compute.
  - by vm_compute.
Defined.

(** A node that wraps a nil map is a tree. *)
Lemma nil_map_tree : tree_shaped empty_store (Init (VMapSI 1)).
Proof. intros q1 q2 c Halloc. destruct c; by destruct Halloc. Qed.

(** A setter on a nil map does not succeed.  The node wraps a nil
    [map[string]interface{}]: the empty parent path resolves, to a value of
    the shape [SetMapSI] expects, and the assignment to it panics. *)
Lemma SetMapSI_nil_map_panics :
  tree_shaped empty_store (Init (VMapSI 1)) ∧
  Get empty_store (Init (VMapSI 1)) [] = Returns (Ok (Init (VMapSI 1))) ∧
  GetMapSI empty_store (Init (VMapSI 1)) [] = Returns (Ok 1%positive) ∧
  SetMapSI empty_store (Init (VMapSI 1)) (VString "v") "k" [] =
    (empty_store, Panics panicNilMap) ∧
  ¬ (∃ s', call_setter (BySetMapSI "k") empty_store (Init (VMapSI 1))
             (VString "v") [] = (s', Returns None)).
Proof.
  split; [exact nil_map_tree|]. repeat split; try by vm_compute.
  intros [s' Hcall]. vm_compute in Hcall. discriminate Hcall.
Qed.

(** ** The calls of the README *)

Example readme_Get_title :
  Get readme_store readme_root [VString "root"; VString "title"] =
  Returns (Ok (Init (VString "example json"))).
Proof. by vm_compute. Qed.

Example readme_Get_contents_1 :
  Get readme_store readme_root [VString "root"; VString "contents"; VInt 1] =
  Returns (Ok (Init (VString "c2"))).
Proof. by vm_compute. Qed.

Example readme_Exists_custom_field :
  Exists readme_store readme_root [VString "custom_field"] = Returns false.
Proof. by vm_compute. Qed.

Example readme_SetMapSI_custom_field_2 :
  let (s', err) :=
    SetMapSI readme_store readme_root (VString "also exists")
      "custom_field_2" [] in
  err = Returns None ∧
  Exists s' readme_root [VString "custom_field_2"] = Returns true.
Proof. by vm_compute. Qed.

Example readme_SetSliceI_changed :
  let (s', err) :=
    SetSliceI readme_store readme_root (VString "changed") 1
      [VString "root"; VString "contents"] in
  err = Returns None ∧
  Get s' readme_root [VString "root"; VString "contents"; VInt 1] =
    Returns (Ok (Init (VString "changed"))).
Proof. by vm_compute. Qed.

Example readme_Get_contents_5 :
  Get readme_store readme_root [VString "root"; VString "contents"; VInt 5] =
  Returns (Err (errorIndexOutOfRange 5
                  [VString "root"; VString "contents"; VInt 5])).
Proof. by vm_compute. Qed.

Example readme_Get_root_5 :
  Get readme_store readme_root [VString "root"; VInt 5; VString "title"] =
  Returns (Err (errorExpectedKey (VInt 5) TInt [VString "root"; VInt 5])).
Proof. by vm_compute. Qed.

Example readme_SetSliceI_out_of_range :
  SetSliceI readme_store readme_root (VString "c4") 3
    [VString "root"; VString "contents"] =
  (readme_store,
   Returns (Some (errorIndexOutOfRange 3 [VString "root"; VString "contents"]))).
Proof. by vm_compute. Qed.

(** ** Keys of a [map[interface{}]interface{}] *)

(** Every hashable key but a NaN is equal to itself. *)
Lemma key_eq_refl (k : value) :
  hashable k = true →
  (∀ bits, k = VFloat64 bits → Float64.is_nan bits = false) →
  key_eq k k = true.
Proof.
  intros Hk Hnan. destruct k; simpl; try done.
  - by destruct b.
  - apply Z.eqb_refl.
  - unfold Float64.eqb. rewrite (Hnan bits eq_refl). cbn [orb].
    destruct (Float64.is_zero bits); cbn [andb]; [done|apply Z.eqb_refl].
  - by apply bool_decide_eq_true.
Qed.

Example scalar_keyed_Get_int :
  Get scalar_keyed_store (Init (VMapII 1)) [VInt 1] =
  Returns (Ok (Init (VString "one"))).
Proof. by vm_compute. Qed.

(** A string is not the [int] it spells, and an [int] is not a [float64]. *)
Example scalar_keyed_Get_other_type :
  Get scalar_keyed_store (Init (VMapII 1)) [VString "1"] =
    Returns (Err (errorKeyNotFound (VString "1") [VString "1"])) ∧
  Get scalar_keyed_store (Init (VMapII 1)) [VInt 0] =
    Returns (Err (errorKeyNotFound (VInt 0) [VInt 0])).
Proof. by vm_compute. Qed.

(** The two zeros are one key. *)
Example scalar_keyed_Get_negative_zero :
  Get scalar_keyed_store (Init (VMapII 1)) [VFloat64 negative_zero_bits] =
  Returns (Ok (Init (VString "zero"))).
Proof. by vm_compute. Qed.

(** A slice as a segment panics on a [map[interface{}]interface{}], and so
    does a setter whose key is one. *)
Example scalar_keyed_unhashable :
  Get scalar_keyed_store (Init (VMapII 1)) [VSliceI 7] =
    Panics (panicUnhashable TSliceI) ∧
  SetMapII scalar_keyed_store (Init (VMapII 1)) VNil (VSliceI 7) [] =
    (scalar_keyed_store, Panics (panicUnhashable TSliceI)).
Proof. by vm_compute. Qed.

(** An entry written under a NaN is never found again. *)
Example scalar_keyed_NaN :
  let (s', err) :=
    SetMapII scalar_keyed_store (Init (VMapII 1)) (VString "nan")
      (VFloat64 nan_bits) [] in
  err = Returns None ∧
  Get s' (Init (VMapII 1)) [VFloat64 nan_bits] =
    Returns (Err (errorKeyNotFound (VFloat64 nan_bits) [VFloat64 nan_bits])).
Proof. by vm_compute. Qed.

(** ** Splitting a path *)

Lemma Get_app_Ok_elim (s : store) (d : DMap) (q1 q2 : list value) (d'' : DMap) :
  Get s d (q1 ++ q2) = Returns (Ok d'') →
  ∃ d', Get s d q1 = Returns (Ok d') ∧ Get s d' q2 = Returns (Ok d'').
Proof.
  intros Hget. apply Get_Ok_iff in Hget. rewrite Get_loop_app in Hget.
  destruct (Get_loop s (q1 ++ q2) 0 q1 (Data d)) as [[d'|e]|x] eqn:Hpre;
    try done.
  exists d'. split; apply Get_Ok_iff; by eapply Get_loop_Ok_ext.
Qed.

Lemma Get_app_Ok_intro (s : store) (d : DMap) (q1 q2 : list value)
    (d' d'' : DMap) :
  Get s d q1 = Returns (Ok d') → Get s d' q2 = Returns (Ok d'') →
  Get s d (q1 ++ q2) = Returns (Ok d'').
Proof.
  intros H1%Get_Ok_iff H2%Get_Ok_iff. apply Get_Ok_iff.
  rewrite Get_loop_app.
  rewrite (Get_loop_Ok_ext s q1 (q1 ++ q2) q1 d' 0%nat 0%nat _ H1).
  simpl. by eapply Get_loop_Ok_ext.
Qed.

(** A result of [Get] that is not a node is the result on every longer
    path. *)
Lemma Get_not_Ok_app (s : store) (d : DMap) (q1 q2 : list value) :
  (∀ d', Get s d q1 ≠ Returns (Ok d')) → Get s d (q1 ++ q2) = Get s d q1.
Proof.
  intros Hfail. destruct (HasData d) eqn:Hd.
  - rewrite !Get_unfold in * by auto. rewrite Get_loop_app.
    rewrite (Get_loop_ext s (q1 ++ q2) q1 q1 0 (Data d)); cycle 1.
    { simpl. by rewrite take_app_length, take_ge. }
    destruct (Get_loop s q1 0 q1 (Data d)) as [[d'|e]|x]; try done.
    by destruct (Hfail d').
  - destruct q1 as [|p q1].
    + destruct (Hfail (Init (Data d))). apply Get_nil.
    + by rewrite !Get_EmptyData.
Qed.

(** X1: [Get] with a path in two parts succeeds exactly when [Get] with the
    first part succeeds and [Get] with the second part, on the node that
    came back, succeeds; the node returned is the same. *)
Theorem Get_app_Ok (s : store) (d : DMap) (q1 q2 : list value) (d'' : DMap) :
  Get s d (q1 ++ q2) = Returns (Ok d'') ↔
  ∃ d', Get s d q1 = Returns (Ok d') ∧ Get s d' q2 = Returns (Ok d'').
Proof.
  split; [apply Get_app_Ok_elim|].
  intros (d' & H1 & H2). by eapply Get_app_Ok_intro.
Qed.

(** X2: [Get] fails fast: an error, or a panic, of [Get] on a path is the
    result of [Get] on every path that extends it, with the same error
    (the same kind, arguments and reported prefix). *)
Theorem Get_failure_extends (s : store) (d : DMap) (q1 q2 : list value) :
  (∀ e, Get s d q1 = Returns (Err e) → Get s d (q1 ++ q2) = Returns (Err e))
  ∧ (∀ x, Get s d q1 = Panics x → Get s d (q1 ++ q2) = Panics x).
Proof.
  split; intros r Hr; rewrite Get_not_Ok_app; try done;
    intros d'; by rewrite Hr.
Qed.

Lemma Get_failure_extends_witness :
  Get readme_store readme_root
    ([VString "root"; VString "contents"; VInt 5] ++ [VString "x"; VInt 0]) =
  Returns (Err (errorIndexOutOfRange 5
                  [VString "root"; VString "contents"; VInt 5])).
Proof.
  apply (proj1 (Get_failure_extends readme_store readme_root
    [VString "root"; VString "contents"; VInt 5] [VString "x"; VInt 0])).
  by vm_compute.
Defined.

(** X3: what [Exists] finds is closed under prefixes: when [Exists] is true
    of a path it is true of every prefix of it, and when it is false of a
    path it is false of every path that extends it. *)
Theorem Exists_prefix (s : store) (d : DMap) (q1 q2 : list value) :
  (Exists s d (q1 ++ q2) = Returns true → Exists s d q1 = Returns true)
  ∧ (Exists s d q1 = Returns false → Exists s d (q1 ++ q2) = Returns false).
Proof.
  unfold Exists. split.
  - destruct (Get s d (q1 ++ q2)) as [[d''|e]|x] eqn:Hget; try done.
    apply Get_app_Ok_elim in Hget as (d' & -> & _). done.
  - destruct (Get s d q1) as [[d'|e]|x] eqn:Hget; try done.
    rewrite Get_not_Ok_app, Hget; [done|]. intros d'. by rewrite Hget.
Qed.

Lemma Exists_prefix_witness :
  Exists readme_store readme_root [VString "root"; VString "contents"] =
  Returns true.
Proof.
  apply (proj1 (Exists_prefix readme_store readme_root
    [VString "root"; VString "contents"] [VInt 2])).
  by vm_compute.
Defined.

(** ** The other steps of the traversal *)

(** X4: at a step [i] of [Get] where the current value is a
    [map[interface{}]interface{}], the segment is looked up as it is, of
    whatever type: a segment that cannot be hashed panics; one that is not
    a key of the map gives the key-not-found error with the segment and the
    path up to and including the step; otherwise the traversal goes on from
    the value stored under the key. *)
Theorem Get_step_MapII (s : store) (d : DMap) (path : list value) (i : nat)
    (a : addr) (p : value) :
  Get s d (take i path) = Returns (Ok (Init (VMapII a))) →
  path !! i = Some p →
  (hashable p = false → Get s d path = Panics (panicUnhashable (type_of p)))
  ∧ (hashable p = true → mapII_index s a p = None →
     Get s d path = Returns (Err (errorKeyNotFound p (take (S i) path))))
  ∧ (∀ v, hashable p = true → mapII_index s a p = Some v →
     Get s d (take (S i) path) = Returns (Ok (Init v)) ∧
     Get s d path = Get_loop s path (S i) (drop (S i) path) v).
Proof.
  intros Hpre Hp.
  destruct (Get_at_step s d path i _ p Hpre) as [Hall Hone]; [|done|].
  { by eapply Get_prefix_HasData. }
  simpl in Hall, Hone. split; [|split].
  - intros Hh. rewrite Hall. simpl. by rewrite Hh.
  - intros Hh Hnone. rewrite Hall. simpl. by rewrite Hh, Hnone.
  - intros v Hh Hsome. rewrite Hall, Hone. by rewrite Hh, Hsome.
Qed.

Lemma Get_step_MapII_witness :
  Get scalar_keyed_store (Init (VMapII 1))
    (take 1 [VFloat64 negative_zero_bits]) =
    Returns (Ok (Init (VString "zero"))) ∧
  Get scalar_keyed_store (Init (VMapII 1)) [VFloat64 negative_zero_bits] =
    Get_loop scalar_keyed_store [VFloat64 negative_zero_bits] 1
      (drop 1 [VFloat64 negative_zero_bits]) (VString "zero").
Proof.
  refine (proj2 (proj2
    (Get_step_MapII scalar_keyed_store (Init (VMapII 1))
       [VFloat64 negative_zero_bits] 0 1 (VFloat64 negative_zero_bits) _ _))
    (VString "zero") _ _); by vm_compute.
Defined.

(** X5: at a step [i] of [Get] where the current value is neither a map nor
    a slice (a scalar, or nil met after the first step), [Get] fails with
    the unexpected-type error and the path up to and including the step. *)
Theorem Get_step_not_container (s : store) (d : DMap) (path : list value)
    (i : nat) (cur p : value) :
  Get s d (take i path) = Returns (Ok (Init cur)) →
  path !! i = Some p →
  ¬ is_container cur →
  cur ≠ VNil ∨ (0 < i)%nat →
  Get s d path = Returns (Err (errorUnexpectedType (take (S i) path))).
Proof.
  intros Hpre Hp Hcur Hnil.
  assert (HasData d = true ∨ (0 < i)%nat) as Hd.
  { destruct Hnil as [Hnil|?]; [|auto]. by eapply Get_prefix_HasData. }
  destruct (Get_at_step s d path i _ p Hpre Hd Hp) as [-> _].
  destruct cur; try done; destruct Hcur; unfold is_container; eauto.
Qed.

Lemma Get_step_not_container_witness :
  Get readme_store readme_root [VString "root"; VString "title"; VInt 0] =
  Returns (Err (errorUnexpectedType
                  (take 3 [VString "root"; VString "title"; VInt 0]))).
Proof.
  apply (Get_step_not_container readme_store readme_root
           [VString "root"; VString "title"; VInt 0] 2
           (VString "example json") (VInt 0)).
  - by vm_compute.
  - reflexivity.
  - intros [[a Ha]|[[a Ha]|[a Ha]]]; discriminate Ha.
  - by left.
Defined.

(** A panic of the loop is the panic of one step, after the steps before it
    went through. *)
Lemma Get_loop_panic (s : store) (path : list value) (x : panic) :
  ∀ rest i cur,
    Get_loop s path i rest cur = Panics x →
    ∃ j a p,
      rest !! j = Some p ∧
      Get_loop s path i (take j rest) cur = Returns (Ok (Init (VMapII a))) ∧
      hashable p = false ∧ x = panicUnhashable (type_of p).
Proof.
  induction rest as [|p rest IH]; intros i cur; [done|].
  rewrite Get_loop_cons. destruct (child s cur p) as [v|] eqn:Hchild.
  - intros (j & a & p' & Hp' & Hpre & Hh & Hx)%IH.
    exists (S j), a, p'. split; [done|]. split; [|done].
    simpl take. by rewrite Get_loop_cons, Hchild.
  - intros Hfail. destruct cur; try (by destruct p).
    simpl in Hfail. destruct (hashable p) eqn:Hh; [done|].
    exists 0%nat, a, p. by simplify_eq.
Qed.

(** X6: [Get] panics exactly when, at some step, the current value is a
    [map[interface{}]interface{}] and the segment cannot be hashed; the
    panic is the one of hashing a value of the segment's type. *)
Theorem Get_panics_iff (s : store) (d : DMap) (path : list value) (x : panic) :
  Get s d path = Panics x ↔
  ∃ i a p,
    path !! i = Some p ∧
    Get s d (take i path) = Returns (Ok (Init (VMapII a))) ∧
    hashable p = false ∧ x = panicUnhashable (type_of p).
Proof.
  split.
  - intros Hget.
    assert (Get s d path = Get_loop s path 0 path (Data d)) as Hloop.
    { unfold Get in *. by destruct (_ && _). }
    rewrite Hloop in Hget.
    apply Get_loop_panic in Hget as (j & a & p & Hp & Hpre & Hh & ->).
    exists j, a, p. split; [done|]. split; [|done].
    apply Get_Ok_iff. by eapply Get_loop_Ok_ext.
  - intros (i & a & p & Hp & Hpre & Hh & ->).
    destruct (Get_at_step s d path i _ p Hpre) as [-> _]; [|done|].
    { by eapply Get_prefix_HasData. }
    simpl. by rewrite Hh.
Qed.

(** X7: when [Get] succeeds, every proper prefix of the path resolves to a
    map or a slice: the traversal goes down through containers only. *)
Theorem Get_Ok_through_containers (s : store) (d : DMap) (path : list value)
    (d' : DMap) (i : nat) :
  Get s d path = Returns (Ok d') → (i < length path)%nat →
  ∃ c, Get s d (take i path) = Returns (Ok (Init c)) ∧ is_container c.
Proof.
  intros Hget Hi. rewrite <- (take_drop i path) in Hget.
  apply Get_app_Ok_elim in Hget as ([c] & Hpre & Hrest).
  exists c. split; [done|].
  destruct (drop i path) as [|p rest] eqn:Hdrop.
  { apply (f_equal length) in Hdrop. rewrite length_drop in Hdrop.
    simpl in Hdrop. lia. }
  apply Get_Ok_iff in Hrest. rewrite Get_loop_cons in Hrest.
  change (Data (Init c)) with c in Hrest. unfold is_container.
  destruct c; try (by destruct p); eauto.
Qed.

Lemma Get_Ok_through_containers_witness :
  ∃ c, Get readme_store readme_root
         (take 2 [VString "root"; VString "contents"; VInt 1]) =
       Returns (Ok (Init c)) ∧ is_container c.
Proof.
  apply (Get_Ok_through_containers readme_store readme_root
           [VString "root"; VString "contents"; VInt 1]
           (Init (VString "c2")) 2).
  - by vm_compute.
  - simpl. lia.
Defined.

(** ** The outcomes of a setter *)

Lemma insert_as_alter {A : Type} (M : gmap addr A) (a : addr) (m : A)
    (f : A → A) :
  M !! a = Some m → <[a := f m]> M = alter f a M.
Proof.
  intros Hm. apply map_eq. intros i.
  rewrite lookup_insert, lookup_alter. case_decide; [|done].
  subst. by rewrite Hm.
Qed.

Lemma slice_elems_lookup (s : store) (a : addr) (index : Z) :
  0 ≤ index < Z.of_nat (length (slice_elems s a)) →
  slicesI s !! a = Some (slice_elems s a).
Proof.
  unfold slice_elems. destruct (slicesI s !! a); [done|]. simpl. lia.
Qed.

(** A setter whose parent resolves and can be assigned to does the
    assignment and returns nil. *)
Lemma call_setter_writable (st : setter) (s : store) (d : DMap) (v : value)
    (path : list value) (a : addr) :
  parent_of st s d path = Returns (Ok a) → writable s st a →
  call_setter st s d v path = (store_assign st s a v, Returns None).
Proof.
  destruct st; simpl; unfold SetMapSI, SetMapII, SetSliceI; intros -> Hw.
  - destruct Hw as [m Hm]. rewrite Hm.
    by rewrite (insert_as_alter _ _ _ (λ m, <[key := v]> m) Hm).
  - destruct Hw as [[m Hm] Hh]. rewrite Hm, Hh.
    by rewrite (insert_as_alter _ _ _ (λ m, mapII_assign m key v) Hm).
  - simpl. rewrite (proj2 (orb_false_iff _ _)) by (split; lia).
    by rewrite (insert_as_alter _ _ _ (λ l, <[Z.to_nat index := v]> l)
                  (slice_elems_lookup s a index Hw)).
Qed.

(** A setter that returns nil resolved its parent and did the assignment. *)
Lemma call_setter_nil_inv (st : setter) (s s' : store) (d : DMap) (v : value)
    (path : list value) :
  call_setter st s d v path = (s', Returns None) →
  ∃ a, parent_of st s d path = Returns (Ok a) ∧ writable s st a ∧
       s' = store_assign st s a v.
Proof.
  intros Hcall.
  destruct (parent_of st s d path) as [[a|e]|x] eqn:Hparent.
  - exists a. split; [done|].
    assert (writable s st a) as Hw.
    { destruct st; simpl in *;
        unfold SetMapSI, SetMapII, SetSliceI in Hcall; rewrite Hparent in Hcall.
      - by destruct (mapsSI s !! a).
      - destruct (mapsII s !! a); [|done]. by destruct (hashable key).
      - simpl in Hcall. destruct (_ || _) eqn:Hin; [done|].
        apply orb_false_iff in Hin. lia. }
    split; [done|].
    rewrite (call_setter_writable st s d v path a Hparent Hw) in Hcall.
    by simplify_eq.
  - destruct st; simpl in *;
      unfold SetMapSI, SetMapII, SetSliceI in Hcall; by rewrite Hparent in Hcall.
  - destruct st; simpl in *;
      unfold SetMapSI, SetMapII, SetSliceI in Hcall; by rewrite Hparent in Hcall.
Qed.

(** A setter that does not return nil leaves the store as it is. *)
Lemma call_setter_failure_store (st : setter) (s s' : store) (d : DMap)
    (v : value) (path : list value) (o : outcome (option error)) :
  call_setter st s d v path = (s', o) → o ≠ Returns None → s' = s.
Proof.
  intros Hcall Ho.
  destruct st; simpl in Hcall; unfold SetMapSI, SetMapII, SetSliceI in Hcall.
  - destruct (GetMapSI s d path) as [[a|e]|x]; [|by simplify_eq..].
    destruct (mapsSI s !! a); by simplify_eq.
  - destruct (GetMapII s d path) as [[a|e]|x]; [|by simplify_eq..].
    destruct (mapsII s !! a); [|by simplify_eq].
    destruct (hashable key); by simplify_eq.
  - destruct (GetSliceI s d path) as [[a|e]|x]; [|by simplify_eq..].
    simpl in Hcall. destruct (_ || _); by simplify_eq.
Qed.

(** X8: a setter returns nil exactly when its typed getter resolves the
    parent path to a container that can be assigned to: a map that is not
    nil (and, for [SetMapII], a key that can be hashed), or a slice with
    [0 <= index < len]; the store is then the one before with that one
    assignment done. *)
Theorem setter_nil_iff (st : setter) (s s' : store) (d : DMap) (v : value)
    (path : list value) :
  call_setter st s d v path = (s', Returns None) ↔
  ∃ a, parent_of st s d path = Returns (Ok a) ∧ writable s st a ∧
       s' = store_assign st s a v.
Proof.
  split; [apply call_setter_nil_inv|].
  intros (a & Hparent & Hw & ->). by apply call_setter_writable.
Qed.

(** X9: a setter that returns an error, or panics, has written nothing: the
    store after the call is the store before it. *)
Theorem setter_failure_keeps_store (st : setter) (s : store) (d : DMap)
    (v : value) (path : list value) :
  (call_setter st s d v path).2 ≠ Returns None →
  (call_setter st s d v path).1 = s.
Proof.
  destruct (call_setter st s d v path) as [s' o] eqn:Hcall. simpl.
  intros Ho. by eapply call_setter_failure_store.
Qed.

Lemma setter_failure_keeps_store_witness :
  (call_setter (BySetMapII (VSliceI 7)) scalar_keyed_store (Init (VMapII 1))
     VNil []).1 = scalar_keyed_store.
Proof.
  apply (setter_failure_keeps_store (BySetMapII (VSliceI 7))
           scalar_keyed_store (Init (VMapII 1)) VNil []).
  vm_compute. discriminate.
Defined.

(** ** What an assignment keeps *)

Lemma store_assign_allocated (st : setter) (s : store) (a : addr)
    (v c : value) :
  allocated (store_assign st s a v) c ↔ allocated s c.
Proof.
  destruct st, c; simpl; try done; by rewrite lookup_alter_is_Some.
Qed.

Lemma store_assign_length (st : setter) (s : store) (a : addr) (v : value)
    (a' : addr) :
  length (slice_elems (store_assign st s a v) a') = length (slice_elems s a').
Proof.
  destruct st; simpl; try done. unfold slice_elems. simpl.
  rewrite lookup_alter. case_decide as Ha; [subst a'|done].
  destruct (slicesI s !! a); simpl; [|done]. apply length_insert.
Qed.

Lemma mapII_lookup_assign_is_Some (m : list (value * value))
    (key v p : value) :
  key_eq key p = true → is_Some (mapII_lookup (mapII_assign m key v) p).
Proof.
  intros Hp. induction m as [|[k' v'] m IH]; simpl.
  - by rewrite Hp.
  - destruct (key_eq k' key); simpl; [by rewrite Hp|].
    by destruct (key_eq k' p).
Qed.

Lemma store_assign_child_is_Some (st : setter) (s : store) (a : addr)
    (v c p : value) :
  is_Some (child s c p) → is_Some (child (store_assign st s a v) c p).
Proof.
  destruct st, c; simpl; try done.
  - destruct p; try done. unfold mapSI_index. simpl. rewrite lookup_alter.
    case_decide as Ha; [subst a0|done].
    destruct (mapsSI s !! a) as [m|]; simpl; [|done].
    destruct (decide (key = str)) as [->|Hne].
    + by rewrite lookup_insert_eq.
    + by rewrite lookup_insert_ne.
  - destruct (hashable p); [|done]. unfold mapII_index. simpl.
    rewrite lookup_alter. case_decide as Ha; [subst a0|done].
    destruct (mapsII s !! a) as [m|]; simpl; [|done].
    destruct (key_eq key p) eqn:Hp.
    + intros _. by apply mapII_lookup_assign_is_Some.
    + by rewrite mapII_lookup_assign_ne.
  - destruct p; try done.
    pose proof (store_assign_length (BySetSliceI index) s a v a0) as Hlen.
    simpl in Hlen. rewrite Hlen. by destruct (_ || _).
Qed.

(** X10: a setter creates no container, removes none and resizes none:
    whatever the call returns, the maps and slices the store holds after it
    are those it held before, and every slice has the length it had. *)
Theorem setter_keeps_containers (st : setter) (s : store) (d : DMap)
    (v : value) (path : list value) :
  (∀ c, allocated (call_setter st s d v path).1 c ↔ allocated s c)
  ∧ (∀ a, length (slice_elems (call_setter st s d v path).1 a) =
          length (slice_elems s a)).
Proof.
  destruct (call_setter st s d v path) as [s' [[e|]|x]] eqn:Hcall; simpl.
  2: { apply call_setter_nil_inv in Hcall as (a & _ & _ & ->).
       split; intros; [apply store_assign_allocated|apply store_assign_length]. }
  all: by rewrite (call_setter_failure_store _ _ _ _ _ _ _ Hcall).
Qed.

(** X11: a setter removes no entry: an entry that a container has under a
    segment before the call, it has under that segment after it, whatever
    the call returns. *)
Theorem setter_keeps_entries (st : setter) (s : store) (d : DMap) (v : value)
    (path : list value) (c p : value) :
  is_Some (child s c p) →
  is_Some (child (call_setter st s d v path).1 c p).
Proof.
  destruct (call_setter st s d v path) as [s' [[e|]|x]] eqn:Hcall; simpl.
  2: { apply call_setter_nil_inv in Hcall as (a & _ & _ & ->).
       apply store_assign_child_is_Some. }
  all: by rewrite (call_setter_failure_store _ _ _ _ _ _ _ Hcall).
Qed.

Lemma setter_keeps_entries_witness :
  is_Some (child
    (call_setter (BySetMapSI "title") readme_store readme_root VNil
       [VString "root"]).1
    (VMapSI 2) (VString "contents")).
Proof.
  apply (setter_keeps_entries (BySetMapSI "title") readme_store readme_root
           VNil [VString "root"] (VMapSI 2) (VString "contents")).
  exists (VSliceI 3). by vm_compute.
Defined.

(** ** Bounds and panics of the setters *)

(** X12: [SetSliceI] with an index that is negative or not below the length
    of the parent slice (any index, when the slice is nil or empty) writes
    nothing and returns the index-out-of-range error, with the index and
    the parent path. *)
Theorem SetSliceI_out_of_range (s : store) (d : DMap) (v : value) (index : Z)
    (path : list value) (a : addr) :
  GetSliceI s d path = Returns (Ok a) →
  index < 0 ∨ Z.of_nat (length (slice_elems s a)) ≤ index →
  SetSliceI s d v index path =
    (s, Returns (Some (errorIndexOutOfRange index path))).
Proof.
  intros Hparent Hout. unfold SetSliceI. rewrite Hparent. simpl.
  destruct (index <? 0) eqn:Hneg; [done|].
  destruct (index >=? _) eqn:Hge; [done|]. lia.
Qed.

Lemma SetSliceI_out_of_range_witness :
  SetSliceI readme_store readme_root (VString "c4") 3
    [VString "root"; VString "contents"] =
  (readme_store,
   Returns (Some (errorIndexOutOfRange 3 [VString "root"; VString "contents"]))).
Proof.
  apply (SetSliceI_out_of_range readme_store readme_root (VString "c4") 3
           [VString "root"; VString "contents"] 3).
  - by vm_compute.
  - right. by vm_compute.
Defined.

(** X13: a setter panics exactly when [Get] panics on the parent path, or
    the parent resolves and the assignment panics: the parent is a nil map,
    or the key of [SetMapII] cannot be hashed.  [SetSliceI] has no panic of
    its own. *)
Theorem setter_panics_iff (st : setter) (s : store) (d : DMap) (v : value)
    (path : list value) (x : panic) :
  (call_setter st s d v path).2 = Panics x ↔
  Get s d path = Panics x ∨
  ∃ a, parent_of st s d path = Returns (Ok a) ∧ assign_panic s st a = Some x.
Proof.
  destruct st; simpl;
    unfold SetMapSI, SetMapII, SetSliceI, GetMapSI, GetMapII, GetSliceI;
    destruct (Get s d path) as [[[c]|e]|x0]; simpl.
  all: try (destruct c; simpl).
  all: try (destruct (mapsSI s !! a) eqn:HmSI; simpl).
  all: try (destruct (mapsII s !! a) eqn:HmII; simpl).
  all: try (destruct (hashable key) eqn:Hh; simpl).
  all: try (destruct (_ || _); simpl).
  all: split;
    [ intros H; simplify_eq;
      first [ by left
            | right; eexists; split; [reflexivity|]; simpl;
              rewrite ?HmSI, ?HmII, ?Hh; reflexivity ]
    | intros [H|(a' & H1 & H2)]; simplify_eq; try reflexivity;
      simpl in H2; rewrite ?HmSI, ?HmII, ?Hh in H2; by simplify_eq ].
Qed.

(** ** Typed getters *)

Lemma parent_of_Ok (st : setter) (s : store) (d : DMap) (path : list value)
    (a : addr) :
  parent_of st s d path = Returns (Ok a) ↔
  Get s d path = Returns (Ok (Init (handle_of st a))).
Proof.
  destruct st; simpl; unfold GetMapSI, GetMapII, GetSliceI;
    destruct (Get s d path) as [[[c]|e]|x]; simpl;
    try destruct c; split; intros H; by simplify_eq.
Qed.

Lemma parent_of_ext (st : setter) (s s' : store) (d : DMap)
    (path : list value) :
  Get s' d path = Get s d path → parent_of st s' d path = parent_of st s d path.
Proof.
  intros Hget. destruct st; simpl; unfold GetMapSI, GetMapII, GetSliceI;
    by rewrite Hget.
Qed.

(** X14: a typed getter returns a container exactly when [Get] resolves the
    path to a value of its shape, and it returns that very container; so on
    one path at most one of [GetMapSI], [GetMapII] and [GetSliceI] returns a
    container. *)
Theorem typed_getter_Ok_iff (s : store) (d : DMap) (path : list value) :
  (∀ st a, parent_of st s d path = Returns (Ok a) ↔
           Get s d path = Returns (Ok (Init (handle_of st a))))
  ∧ (∀ st1 st2 a1 a2,
       parent_of st1 s d path = Returns (Ok a1) →
       parent_of st2 s d path = Returns (Ok a2) →
       handle_of st1 a1 = handle_of st2 a2).
Proof.
  split; [intros st a; apply parent_of_Ok|].
  intros st1 st2 a1 a2 H1%parent_of_Ok H2%parent_of_Ok.
  rewrite H1 in H2. by injection H2.
Qed.

Lemma typed_getter_Ok_iff_witness :
  handle_of (BySetSliceI 0) 3 = handle_of (BySetSliceI 1) 3.
Proof.
  apply (proj2 (typed_getter_Ok_iff readme_store readme_root
                  [VString "root"; VString "contents"]));
    by vm_compute.
Defined.

(** ** Writing twice *)

Lemma mapII_assign_twice (m : list (value * value)) (key v1 v2 : value) :
  key_eq key key = true →
  mapII_assign (mapII_assign m key v1) key v2 = mapII_assign m key v2.
Proof.
  intros Hrefl. induction m as [|[k' v'] m IH]; simpl.
  - by rewrite Hrefl.
  - destruct (key_eq k' key) eqn:Hk; simpl.
    + by rewrite Hrefl.
    + by rewrite Hk, IH.
Qed.

Lemma store_assign_twice (st : setter) (s : store) (a : addr)
    (v1 v2 : value) :
  key_eq (segment_of st) (segment_of st) = true →
  store_assign st (store_assign st s a v1) a v2 = store_assign st s a v2.
Proof.
  intros Hrefl. destruct st; simpl in *; f_equal; rewrite alter_alter_eq;
    apply alter_ext; intros m _; simpl.
  - apply insert_insert_eq.
  - by apply mapII_assign_twice.
  - apply list_insert_insert_eq.
Qed.

Lemma store_assign_writable (st : setter) (s : store) (a : addr) (v : value) :
  writable s st a → writable (store_assign st s a v) st a.
Proof.
  destruct st; simpl.
  - by rewrite lookup_alter_is_Some.
  - by rewrite lookup_alter_is_Some.
  - pose proof (store_assign_length (BySetSliceI index) s a v a) as Hlen.
    simpl in Hlen. by rewrite Hlen.
Qed.

Lemma valid_target_writable (s : store) (st : setter) (a : addr) :
  valid_target s st (handle_of st a) →
  writable s st a ∧ key_eq (segment_of st) (segment_of st) = true.
Proof.
  destruct st; simpl.
  - intros ?. split; [done|]. by apply bool_decide_eq_true.
  - by intros (? & ? & ?).
  - intros ?. split; [done|]. apply Z.eqb_refl.
Qed.

(** In a tree, a write under the container at [path] does not change what
    [path] resolves to. *)
Lemma call_setter_keeps_parent (st : setter) (s s' : store) (d : DMap)
    (v : value) (path : list value) (parent : value) :
  tree_shaped s d →
  Get s d path = Returns (Ok (Init parent)) →
  valid_target s st parent →
  call_setter st s d v path = (s', Returns None) →
  Get s' d path = Get s d path.
Proof.
  intros Htree Hget Hvalid Hcall.
  pose proof (valid_target_allocated _ _ _ Hvalid) as Halloc.
  destruct (call_setter_valid st s d v path parent Hget Hvalid)
    as (s'' & Hcall' & _ & Hsib & Hother).
  rewrite Hcall in Hcall'. injection Hcall' as <-.
  apply (Get_frame s s' d path
           (λ c p, c = parent ∧ key_eq (segment_of st) p = true)).
  - intros c p Hmiss. destruct (decide (c = parent)) as [->|Hc].
    + apply Hsib. destruct (key_eq (segment_of st) p) eqn:Hp; [|done].
      by destruct Hmiss.
    + by apply Hother.
  - intros j c p Hp Hpre [-> _].
    exact (tree_path_misses_target s d path parent j p
             Htree Halloc Hget Hp Hpre).
Qed.

(** X15: in a tree, the last write wins: a setter called twice on the same
    parent path with the same key or index (a key that is not a NaN) leaves
    the store, and returns, as the second call alone does. *)
Theorem setter_overwrite (st : setter) (s : store) (d : DMap)
    (v1 v2 : value) (path : list value) (parent : value) :
  tree_shaped s d →
  Get s d path = Returns (Ok (Init parent)) →
  valid_target s st parent →
  call_setter st (call_setter st s d v1 path).1 d v2 path =
  call_setter st s d v2 path.
Proof.
  intros Htree Hget Hvalid.
  destruct (call_setter_valid st s d v1 path parent Hget Hvalid)
    as (s1 & Hcall & _).
  pose proof (call_setter_keeps_parent st s s1 d v1 path parent
                Htree Hget Hvalid Hcall) as Hsame.
  rewrite Hcall. simpl.
  apply call_setter_nil_inv in Hcall as (a & Hparent & Hw & ->).
  assert (parent = handle_of st a) as ->.
  { apply parent_of_Ok in Hparent. rewrite Hget in Hparent. by simplify_eq. }
  apply valid_target_writable in Hvalid as [_ Hrefl].
  rewrite (call_setter_writable st s d v2 path a Hparent Hw).
  rewrite (call_setter_writable st _ d v2 path a).
  - by rewrite store_assign_twice.
  - by rewrite (parent_of_ext st s _ d path Hsame).
  - by apply store_assign_writable.
Qed.

Lemma setter_overwrite_witness :
  call_setter (BySetSliceI 1)
    (call_setter (BySetSliceI 1) readme_store readme_root (VString "once")
       [VString "root"; VString "contents"]).1
    readme_root (VString "twice") [VString "root"; VString "contents"] =
  call_setter (BySetSliceI 1) readme_store readme_root (VString "twice")
    [VString "root"; VString "contents"].
Proof.
  apply (setter_overwrite (BySetSliceI 1) readme_store readme_root
           (VString "once") (VString "twice")
           [VString "root"; VString "contents"] (VSliceI 3)).
  - exact readme_tree.
  - by vm_compute.
  - by vm_compute.
Defined.

(** ** Segments that are the same key *)

Lemma Float64_eqb_sym (x y : Z) : Float64.eqb x y = Float64.eqb y x.
Proof.
  unfold Float64.eqb.
  destruct (Float64.is_nan x), (Float64.is_nan y); cbn [orb]; try reflexivity.
  destruct (Float64.is_zero x), (Float64.is_zero y); cbn [andb];
    try reflexivity; apply Z.eqb_sym.
Qed.

Lemma key_eq_sym (a b : value) : key_eq a b = key_eq b a.
Proof.
  destruct a, b; simpl; try reflexivity.
  - by destruct b0, b.
  - apply Z.eqb_sym.
  - apply Float64_eqb_sym.
  - apply bool_decide_ext. split; congruence.
Qed.

Lemma key_eq_hashable (a b : value) :
  key_eq a b = true → hashable a = true ∧ hashable b = true.
Proof. by destruct a, b. Qed.

Lemma mapII_lookup_key_eq (m : list (value * value)) (p p' : value) :
  key_eq p p' = true → mapII_lookup m p' = mapII_lookup m p.
Proof.
  intros Hp. induction m as [|[k' v'] m IH]; simpl; [done|].
  assert (key_eq k' p' = key_eq k' p) as ->; [|by rewrite IH].
  destruct (key_eq k' p') eqn:H1, (key_eq k' p) eqn:H2; try done.
  - rewrite key_eq_sym in H1. rewrite key_eq_sym in Hp.
    pose proof (key_eq_trans_l _ _ _ H1 Hp) as H3. congruence.
  - rewrite key_eq_sym in H2.
    pose proof (key_eq_trans_l _ _ _ H2 Hp) as H3. congruence.
Qed.

Lemma child_same_segment (s : store) (c p p' : value) :
  same_segment p p' → child s c p' = child s c p.
Proof.
  intros [->|Hp]; [done|].
  destruct (key_eq_hashable _ _ Hp) as [Hh Hh'].
  destruct c; simpl; try done.
  - destruct p, p'; simpl in Hp; try done.
    by apply bool_decide_eq_true in Hp as ->.
  - rewrite Hh, Hh'. unfold mapII_index.
    destruct (mapsII s !! a); [|done]. by apply mapII_lookup_key_eq.
  - destruct p, p'; simpl in Hp; try done.
    by apply Z.eqb_eq in Hp as ->.
Qed.

Lemma Get_loop_same_segment (s : store) (rest rest' : list value) (d' : DMap) :
  Forall2 same_segment rest rest' →
  ∀ path path' i i' cur,
    Get_loop s path i rest cur = Returns (Ok d') →
    Get_loop s path' i' rest' cur = Returns (Ok d').
Proof.
  induction 1 as [|p p' rest rest' Hp Hrest IH]; intros path path' i i' cur;
    [done|].
  rewrite !Get_loop_cons, (child_same_segment s cur p p' Hp).
  destruct (child s cur p); [apply IH|].
  by destruct cur, p; simpl; try destruct (hashable _).
Qed.

(** X16: segments are compared as Go compares map keys: two paths of the
    same length whose segments are pairwise equal, or equal as keys (the two
    zeros of [float64]), resolve to the same node. *)
Theorem Get_same_segment (s : store) (d : DMap) (q q' : list value)
    (d' : DMap) :
  Forall2 same_segment q q' →
  Get s d q = Returns (Ok d') → Get s d q' = Returns (Ok d').
Proof.
  intros Hq Hget%Get_Ok_iff. apply Get_Ok_iff.
  by eapply Get_loop_same_segment.
Qed.

Lemma Get_same_segment_witness :
  Get scalar_keyed_store (Init (VMapII 1)) [VFloat64 negative_zero_bits] =
  Returns (Ok (Init (VString "zero"))).
Proof.
  apply (Get_same_segment scalar_keyed_store (Init (VMapII 1))
           [VFloat64 0] [VFloat64 negative_zero_bits]).
  - constructor; [right; by vm_compute|constructor].
  - by vm_compute.
Defined.

(** ** Trees stay trees *)

(** The written path resolves to the written value, and the paths that do
    not go through it resolve as before. *)
Lemma call_setter_frame (st : setter) (s s' : store) (d : DMap) (v : value)
    (path : list value) (parent : value) :
  tree_shaped s d →
  Get s d path = Returns (Ok (Init parent)) →
  valid_target s st parent →
  call_setter st s d v path = (s', Returns None) →
  Get s' d (path ++ [segment_of st]) = Returns (Ok (Init v)) ∧
  (∀ q, ¬ passes_through (path ++ [segment_of st]) q →
        Get s' d q = Get s d q).
Proof.
  intros Htree Hget Hvalid Hcall.
  pose proof (valid_target_allocated _ _ _ Hvalid) as Halloc.
  pose proof (call_setter_keeps_parent st s s' d v path parent
                Htree Hget Hvalid Hcall) as Hsame.
  destruct (call_setter_valid st s d v path parent Hget Hvalid)
    as (s'' & Hcall' & Hnew & Hsib & Hother).
  rewrite Hcall in Hcall'. injection Hcall' as <-. split.
  - apply (Get_app_Ok_intro s' d path [segment_of st] (Init parent)).
    + by rewrite Hsame.
    + rewrite Get_one_segment by (by destruct parent). by rewrite Hnew.
  - intros q Hq.
    apply (Get_frame s s' d q
             (λ c p, c = parent ∧ key_eq (segment_of st) p = true)).
    + intros c p Hmiss. destruct (decide (c = parent)) as [->|Hc].
      * apply Hsib. destruct (key_eq (segment_of st) p) eqn:Hp; [|done].
        by destruct Hmiss.
      * by apply Hother.
    + intros j c p Hp Hpre [-> Hseg]. apply Hq.
      by eapply tree_hit_passes_through.
Qed.

(** X17: writing a value that is not a map or a slice keeps a tree a tree:
    after a setter succeeds with such a value in a tree, every container is
    still reached by one path only, so the guarantees of a write in a tree
    hold for the next write too. *)
Theorem setter_scalar_keeps_tree (st : setter) (s : store) (d : DMap)
    (v : value) (path : list value) (parent : value) :
  tree_shaped s d →
  Get s d path = Returns (Ok (Init parent)) →
  valid_target s st parent →
  ¬ is_container v →
  tree_shaped (call_setter st s d v path).1 d.
Proof.
  intros Htree Hget Hvalid Hv.
  destruct (call_setter_valid st s d v path parent Hget Hvalid)
    as (s' & Hcall & _).
  destruct (call_setter_frame st s s' d v path parent Htree Hget Hvalid Hcall)
    as [Hnew Hframe].
  rewrite Hcall. simpl.
  assert (∀ c, allocated s' c → allocated s c) as Halloc.
  { intros c. apply call_setter_nil_inv in Hcall as (a & _ & _ & ->).
    apply store_assign_allocated. }
  assert (∀ q c, allocated s' c → Get s' d q = Returns (Ok (Init c)) →
                 Get s d q = Returns (Ok (Init c))) as Hback.
  { intros q c Hc Hq. rewrite <- Hframe; [done|].
    intros (q0 & q1 & -> & Hq0).
    apply Get_app_Ok_elim in Hq as (d' & Hpre & Hrest).
    assert (Get s' d q0 = Returns (Ok (Init v))) as Hq0'.
    { apply Get_Ok_iff. apply Get_Ok_iff in Hnew.
      by eapply Get_loop_same_segment. }
    rewrite Hq0' in Hpre.
    injection Hpre as <-. destruct q1 as [|p q1].
    - rewrite Get_nil in Hrest. injection Hrest as <-.
      apply Hv. unfold is_container. destruct v; try done; eauto.
    - apply Get_Ok_iff in Hrest. rewrite Get_loop_cons in Hrest.
      change (Data (Init v)) with v in Hrest.
      apply Hv. unfold is_container.
      destruct v; try (by destruct p); eauto. }
  intros q1 q2 c Hc H1 H2.
  apply (Htree q1 q2 c); [by apply Halloc|by apply Hback..].
Qed.

Lemma setter_scalar_keeps_tree_witness :
  tree_shaped
    (call_setter (BySetSliceI 1) readme_store readme_root (VString "changed")
       [VString "root"; VString "contents"]).1
    readme_root.
Proof.
  apply (setter_scalar_keeps_tree (BySetSliceI 1) readme_store readme_root
           (VString "changed") [VString "root"; VString "contents"]
           (VSliceI 3)).
  - exact readme_tree.
  - by vm_compute.
  - by vm_compute.
  - intros [[a Ha]|[[a Ha]|[a Ha]]]; discriminate Ha.
Defined.

(** ** The empty-data error *)

(** X18: [Get] returns the empty-data error exactly when the node wraps nil
    and the path is not empty; a nil met further down the path is reported
    as a value of unexpected type instead. *)
Theorem Get_EmptyData_iff (s : store) (d : DMap) (path : list value) :
  Get s d path = Returns (Err errorEmptyData) ↔
  HasData d = false ∧ path ≠ [].
Proof.
  split.
  - intros Hget. destruct (HasData d) eqn:Hd.
    + rewrite Get_unfold in Hget by auto.
      apply Get_loop_error in Hget as (j & c & p & _ & _ & _ & Hfail).
      by apply step_failure_error in Hfail as [_ Hne].
    + split; [done|]. intros ->. by rewrite Get_nil in Hget.
  - intros [Hd Hne]. by apply Get_EmptyData.
Qed.
